(** * gdrive: a shallow embedding of the Drive client and its properties

    The development follows [gdrive.go]:
    - the data the client exchanges with the Drive service ([File],
      [FileList], [Response]) and the errors it builds;
    - the two [buildPath] closures of [ListFiles] and [ListFilesInFolder];
    - the listing loops, run in a small state monad that records every
      request sent to the service;
    - the transfer operations and the metadata predicates.

    Go maps are [gmap]s, slices are lists, [int64] values are [Z] (the code
    only compares them), strings are byte strings. *)

From Stdlib Require Import ZArith String Ascii List DecimalString.
From stdpp Require Import gmap strings list fin_maps.

Local Open Scope string_scope.
Local Open Scope Z_scope.

(** ** Data exchanged with the service *)

(** The fields of [drive.File] that the client reads or writes. *)
Record File := mkFile {
  Id : string;
  Name : string;
  MimeType : string;
  Size : Z;
  WebViewLink : string;
  Parents : list string;
  Trashed : bool
}.

(** [gdrive.FileInfo]. *)
Record FileInfo := mkFileInfo {
  fiID : string;
  fiName : string;
  fiMimeType : string;
  fiSize : Z;
  fiWebViewLink : string;
  fiParents : list string;
  fiFolderPath : string
}.

Definition MaxPageSize : Z := 100.

Definition folderMimeType : string := "application/vnd.google-apps.folder".

(** [strings.Join]. *)
Fixpoint Join (elems : list string) (sep : string) : string :=
  match elems with
  | [] => ""
  | [x] => x
  | x :: rest => x +:+ sep +:+ Join rest sep
  end.

(** ** Path resolution *)

(** [for _, folder := range foldersResp.Files { folderMap[folder.Id] = folder.Name }] *)
Definition build_folderMap (folders : list File) : gmap string string :=
  foldl (fun m folder => <[Id folder := Name folder]> m) ∅ folders.

(** [folderParentMap[folder.Id] = folder.Parents], in [ListFilesInFolder]. *)
Definition build_folderParentMap (folders : list File) : gmap string (list string) :=
  foldl (fun m folder => <[Id folder := Parents folder]> m) ∅ folders.

(** Reading a [map[string]bool]: an absent key reads as [false]. *)
Definition visited_at (visited : gmap string bool) (id : string) : bool :=
  default false (visited !! id).

(** The last lines of both closures. *)
Definition render_path (pathParts : list string) : string :=
  if decide (length pathParts = 0%nat) then "My Drive"
  else "My Drive/" +:+ Join pathParts "/".

Module ListFilesPath.

(** The inner [range] loop of [ListFiles]' closure: the first folder of the
    listing whose id is [currentID] and that has a parent gives the next
    identifier; [None] when the loop ends without assigning. *)
Fixpoint find_parent (folders : list File) (currentID : string) : option string :=
  match folders with
  | [] => None
  | folder :: rest =>
      if decide (Id folder = currentID) then
        match Parents folder with
        | p :: _ => Some p
        | [] => find_parent rest currentID
        end
      else find_parent rest currentID
  end.

(** [for i := 0; i < 10 && currentID != "" && !visited[currentID]; i++],
    with [remaining = 10 - i]. When no parent is found [currentID] keeps
    its value, and the next test of [visited] ends the loop. *)
Fixpoint walk (folders : list File) (folderMap : gmap string string)
    (remaining : nat) (currentID : string) (visited : gmap string bool)
    (pathParts : list string) : list string :=
  match remaining with
  | O => pathParts
  | S remaining' =>
      if decide (currentID = "") then pathParts
      else if visited_at visited currentID then pathParts
      else
        let visited' := <[currentID := true]> visited in
        match folderMap !! currentID with
        | Some folderName =>
            walk folders folderMap remaining'
              (default currentID (find_parent folders currentID))
              visited' (folderName :: pathParts)
        | None => pathParts
        end
  end.

Definition pathParts (folders : list File) (currentID : string) : list string :=
  walk folders (build_folderMap folders) 10 currentID ∅ [].

Definition buildPath (folders : list File) (parentIDs : list string) : string :=
  match parentIDs with
  | [] => "My Drive"
  | currentID :: _ => render_path (pathParts folders currentID)
  end.

End ListFilesPath.

Module ListFilesInFolderPath.

(** Same loop, but the parent comes from [folderParentMap] and a folder
    without parent ends the loop at once. *)
Fixpoint walk (folderMap : gmap string string)
    (folderParentMap : gmap string (list string))
    (remaining : nat) (currentID : string) (visited : gmap string bool)
    (pathParts : list string) : list string :=
  match remaining with
  | O => pathParts
  | S remaining' =>
      if decide (currentID = "") then pathParts
      else if visited_at visited currentID then pathParts
      else
        let visited' := <[currentID := true]> visited in
        match folderMap !! currentID with
        | Some folderName =>
            match folderParentMap !! currentID with
            | Some (p :: _) =>
                walk folderMap folderParentMap remaining' p visited'
                  (folderName :: pathParts)
            | _ => folderName :: pathParts
            end
        | None => pathParts
        end
  end.

Definition pathParts (folders : list File) (currentID : string) : list string :=
  walk (build_folderMap folders) (build_folderParentMap folders) 10 currentID ∅ [].

Definition buildPath (folders : list File) (parentIDs : list string) : string :=
  match parentIDs with
  | [] => "My Drive"
  | currentID :: _ => render_path (pathParts folders currentID)
  end.

End ListFilesInFolderPath.

(** The two closures behind one name, and the folder index as each of them
    consults it: the name of a container, and the identifier the walk moves
    to from it. *)
Inductive helper := InListFiles | InListFilesInFolder.

Definition pathParts (h : helper) (folders : list File) (currentID : string) : list string :=
  match h with
  | InListFiles => ListFilesPath.pathParts folders currentID
  | InListFilesInFolder => ListFilesInFolderPath.pathParts folders currentID
  end.

Definition buildPath (h : helper) (folders : list File) (parentIDs : list string) : string :=
  match h with
  | InListFiles => ListFilesPath.buildPath folders parentIDs
  | InListFilesInFolder => ListFilesInFolderPath.buildPath folders parentIDs
  end.

Definition index_name (folders : list File) (id : string) : option string :=
  build_folderMap folders !! id.

Definition index_parent (h : helper) (folders : list File) (id : string) : option string :=
  match h with
  | InListFiles => ListFilesPath.find_parent folders id
  | InListFilesInFolder => build_folderParentMap folders !! id ≫= head
  end.

(** [cs] is a parent chain of the index: every identifier of [cs] names a
    container of the index, and the next identifier of [cs] is the one the
    walk moves to. *)
Definition parent_chain (h : helper) (folders : list File) (cs : list string) : Prop :=
  ∀ (j : nat) (c : string), cs !! j = Some c →
    is_Some (index_name folders c) ∧
    ∀ c', cs !! S j = Some c' → index_parent h folders c = Some c'.

(** A cycle: a chain of distinct identifiers whose last one leads back to the
    first. *)
Definition parent_cycle (h : helper) (folders : list File) (cs : list string) : Prop :=
  parent_chain h folders cs ∧ NoDup cs ∧
  ∃ c0, head cs = Some c0 ∧ last cs ≫= index_parent h folders = Some c0.

Definition chain_names (folders : list File) (cs : list string) : list string :=
  omap (index_name folders) cs.

Definition mark_all (cs : list string) (visited : gmap string bool) : gmap string bool :=
  foldl (fun v c => <[c := true]> v) visited cs.

(** ** Errors, the service and the request log *)

(** The errors the client returns: its own messages, its wrappers around an
    inner error, and errors that come from outside (transport, service,
    reader or writer). *)
Inductive error :=
| errors_New (msg : string)
    (* errors.New(msg) *)
| Errorf_wrap (context : string) (err : error)
    (* fmt.Errorf(context + ": %w", err) *)
| Errorf_status (code : Z)
    (* fmt.Errorf("unexpected status code: %d", code) *)
| external (msg : string).

(** A value or an error, for the calls whose value is unused on error. *)
Inductive result (A : Type) :=
| Ok (a : A)
| Err (err : error).
Arguments Ok {A} a.
Arguments Err {A} err.

(** [io.Reader], [io.Writer] and [io.Copy] belong to the Go library: the
    client is embedded for any of them. [io_Copy w r] is the pair
    [(written, err)] that [io.Copy(w, r)] returns. *)
Class IO := {
  Reader : Type;
  Writer : Type;
  io_Copy : Writer → Reader → Z * option error
}.

(** [fmt.Sprintf("%d", n)] *)
Definition fmt_d (n : Z) : string := NilZero.string_of_int (Z.to_int n).

Section Client.

Context `{IO}.

(** [drive.FileList] *)
Record FileList := mkFileList {
  Files : list File;
  NextPageToken : string
}.

(** [http.Response] *)
Record Response := mkResponse {
  StatusCode : Z;
  Body : Reader
}.

Definition StatusOK : Z := 200.
Definition StatusPartialContent : Z := 206.

(** A [Files.List()] call: [Q] and [PageToken] are [None] when the
    builder method was not called. *)
Record ListCall := mkListCall {
  Q : option string;
  Fields : string;
  PageSize : Z;
  PageToken : option string
}.

(** The requests the client sends. *)
Inductive Request :=
| Files_List (call : ListCall)
| Files_Get (fileID fields : string)
| Files_Get_Download (fileID : string)
| Files_Export_Download (fileID mimeType : string)
| Files_Create (meta : File) (media : Reader) (fields : string)
| Revisions_Get_Download (fileID revisionID : string) (Range : option string).

(** [drive.Service]: what the remote side answers to each request. *)
Record Service := mkService {
  List_Do : ListCall → result FileList;
  Get_Do : string → string → result File;
  Get_Download : string → result Response;
  Export_Download : string → string → result Response;
  Create_Do : File → Reader → string → result File;
  Revisions_Download : string → string → option string → result Response
}.

Record DriveClient := mkDriveClient { service : Service }.

(** Computations that send requests: the state is the log of the requests
    sent so far, oldest first. Output on [stdout] is not modelled. *)
Definition M (A : Type) : Type := list Request → A * list Request.

Definition ret {A} (a : A) : M A := fun log => (a, log).

Definition bind {A B} (m : M A) (k : A → M B) : M B :=
  fun log => let '(a, log') := m log in k a log'.

Definition send {A} (r : Request) (answer : A) : M A :=
  fun log => (answer, (log ++ [r])%list).

Definition value {A} (x : A * list Request) : A := fst x.
Definition requests {A} (x : A * list Request) : list Request := snd x.

End Client.

Notation "'let*' x := m 'in' k" := (bind m (fun x => k))
  (at level 10, x name, m at level 100, k at level 200).

Section Operations.

Context `{IO}.

(** *** Listing *)

Definition folders_call : ListCall :=
  mkListCall (Some "mimeType='application/vnd.google-apps.folder'")
    "files(id, name, parents)" 1000 None.

Definition files_fields : string :=
  "nextPageToken, files(id, name, mimeType, size, webViewLink, parents)".

(** [if pageToken != "" { call = call.PageToken(pageToken) }] *)
Definition with_PageToken (q : option string) (pageToken : string) : ListCall :=
  mkListCall q files_fields MaxPageSize
    (if decide (pageToken ≠ "") then Some pageToken else None).

(** The [range r.Files] loop of [ListFiles]. *)
Definition ListFiles_page (folders : list File) (files : list FileInfo)
    (items : list File) : list FileInfo :=
  foldl (fun files item =>
           if (Size item =? 0) || String.eqb (MimeType item) folderMimeType
           then files
           else (files ++ [mkFileInfo (Id item) (Name item) (MimeType item)
                             (Size item) (WebViewLink item) (Parents item)
                             (ListFilesPath.buildPath folders (Parents item))])%list)
        files items.

(** The paging loop [for { ... }]: [None] when [fuel] pages were fetched
    and the service still announces another one. *)
Fixpoint ListFiles_loop (fuel : nat) (dc : DriveClient) (folders : list File)
    (pageToken : string) (files : list FileInfo)
    : M (option (list FileInfo * option error)) :=
  match fuel with
  | O => ret None
  | S fuel' =>
      let call := with_PageToken None pageToken in
      let* r := send (Files_List call) (List_Do (service dc) call) in
      match r with
      | Err err => ret (Some ([], Some (Errorf_wrap "unable to retrieve files" err)))
      | Ok r =>
          let files' := ListFiles_page folders files (Files r) in
          if decide (NextPageToken r = "") then ret (Some (files', None))
          else ListFiles_loop fuel' dc folders (NextPageToken r) files'
      end
  end.

Definition ListFiles (fuel : nat) (dc : DriveClient)
    : M (option (list FileInfo * option error)) :=
  let* foldersResp := send (Files_List folders_call) (List_Do (service dc) folders_call) in
  match foldersResp with
  | Err err => ret (Some ([], Some (Errorf_wrap "unable to retrieve folders" err)))
  | Ok foldersResp => ListFiles_loop fuel dc (Files foldersResp) "" []
  end.

Definition ListFilesInFolder_page (folders : list File) (files : list FileInfo)
    (items : list File) : list FileInfo :=
  foldl (fun files item =>
           if String.eqb (MimeType item) folderMimeType || (Size item =? 0)
           then files
           else (files ++ [mkFileInfo (Id item) (Name item) (MimeType item)
                             (Size item) (WebViewLink item) (Parents item)
                             (ListFilesInFolderPath.buildPath folders (Parents item))])%list)
        files items.

Fixpoint ListFilesInFolder_loop (fuel : nat) (dc : DriveClient) (query : string)
    (folders : list File) (pageToken : string) (files : list FileInfo)
    : M (option (list FileInfo * option error)) :=
  match fuel with
  | O => ret None
  | S fuel' =>
      let call := with_PageToken (Some query) pageToken in
      let* r := send (Files_List call) (List_Do (service dc) call) in
      match r with
      | Err err => ret (Some ([], Some (Errorf_wrap "unable to retrieve files" err)))
      | Ok r =>
          let files' := ListFilesInFolder_page folders files (Files r) in
          if decide (NextPageToken r = "") then ret (Some (files', None))
          else ListFilesInFolder_loop fuel' dc query folders (NextPageToken r) files'
      end
  end.

Definition ListFilesInFolder (fuel : nat) (dc : DriveClient) (parentFolderID : string)
    : M (option (list FileInfo * option error)) :=
  let query :=
    if decide (parentFolderID ≠ "")
    then "'" +:+ parentFolderID +:+ "' in parents and trashed=false"
    else "trashed=false" in
  let* foldersResp := send (Files_List folders_call) (List_Do (service dc) folders_call) in
  match foldersResp with
  | Err err => ret (Some ([], Some (Errorf_wrap "unable to retrieve folders" err)))
  | Ok foldersResp => ListFilesInFolder_loop fuel dc query (Files foldersResp) "" []
  end.

(** The listing that starts at [pageToken] reaches its last page, or an
    error, within [n] requests. *)
Fixpoint listing_ends (n : nat) (dc : DriveClient) (q : option string)
    (pageToken : string) : bool :=
  match n with
  | O => false
  | S n' =>
      match List_Do (service dc) (with_PageToken q pageToken) with
      | Err _ => true
      | Ok r =>
          if decide (NextPageToken r = "") then true
          else listing_ends n' dc q (NextPageToken r)
      end
  end.

(** *** Transfers *)

(** [written, err := io.Copy(w, resp.Body)] and the two returns after it. *)
Definition copy_body (w : Writer) (resp : Response) (context : string)
    : Z * option error :=
  let '(written, err) := io_Copy w (Body resp) in
  match err with
  | Some err => (written, Some (Errorf_wrap context err))
  | None => (written, None)
  end.

Definition StreamFile (dc : DriveClient) (fileID : string) (w : Writer)
    : M (Z * option error) :=
  if decide (fileID = "") then ret (0, Some (errors_New "file ID cannot be empty"))
  else
    let* r := send (Files_Get_Download fileID) (Get_Download (service dc) fileID) in
    match r with
    | Err err => ret (0, Some (Errorf_wrap "unable to download file" err))
    | Ok resp =>
        if decide (StatusCode resp ≠ StatusOK)
        then ret (0, Some (Errorf_status (StatusCode resp)))
        else ret (copy_body w resp "unable to stream file content")
    end.

Record PartialDownloadOptions := mkPartialDownloadOptions {
  StartByte : Z;
  EndByte : Z
}.

(** [fmt.Sprintf("bytes=%d-%d", opts.StartByte, opts.EndByte)] *)
Definition rangeHeader (opts : PartialDownloadOptions) : string :=
  "bytes=" +:+ fmt_d (StartByte opts) +:+ "-" +:+ fmt_d (EndByte opts).

Definition PartialDownloadFile (dc : DriveClient) (fileID : string) (w : Writer)
    (opts : PartialDownloadOptions) : M (Z * option error) :=
  if decide (fileID = "") then ret (0, Some (errors_New "file ID cannot be empty"))
  else if decide (StartByte opts < 0 ∨ EndByte opts < 0)
  then ret (0, Some (errors_New "byte positions cannot be negative"))
  else if decide (StartByte opts > EndByte opts)
  then ret (0, Some (errors_New "start byte must be less than or equal to end byte"))
  else
    let* r := send (Revisions_Get_Download fileID fileID (Some (rangeHeader opts)))
                (Revisions_Download (service dc) fileID fileID (Some (rangeHeader opts))) in
    match r with
    | Err err => ret (0, Some (Errorf_wrap "unable to download revision" err))
    | Ok resp =>
        if decide (StatusCode resp ≠ StatusPartialContent ∧ StatusCode resp ≠ StatusOK)
        then ret (0, Some (Errorf_status (StatusCode resp)))
        else ret (copy_body w resp "unable to write revision content")
    end.

Definition PartialStreamFile (dc : DriveClient) (fileID : string) (w : Writer)
    (startByte endByte : Z) : M (Z * option error) :=
  PartialDownloadFile dc fileID w (mkPartialDownloadOptions startByte endByte).

(** [ExportFormat] is a string type. *)
Definition ExportWorkspaceDocument (dc : DriveClient) (fileID : string) (w : Writer)
    (format : string) : M (Z * option error) :=
  if decide (fileID = "") then ret (0, Some (errors_New "file ID cannot be empty"))
  else if decide (format = "")
  then ret (0, Some (errors_New "export format cannot be empty"))
  else
    let* r := send (Files_Export_Download fileID format)
                (Export_Download (service dc) fileID format) in
    match r with
    | Err err => ret (0, Some (Errorf_wrap "unable to export document" err))
    | Ok resp =>
        if decide (StatusCode resp ≠ StatusOK)
        then ret (0, Some (Errorf_status (StatusCode resp)))
        else ret (copy_body w resp "unable to write exported content")
    end.

Definition DownloadRevision (dc : DriveClient) (fileID revisionID : string)
    (w : Writer) : M (Z * option error) :=
  if decide (fileID = "") then ret (0, Some (errors_New "file ID cannot be empty"))
  else if decide (revisionID = "")
  then ret (0, Some (errors_New "revision ID cannot be empty"))
  else
    let* r := send (Revisions_Get_Download fileID revisionID None)
                (Revisions_Download (service dc) fileID revisionID None) in
    match r with
    | Err err => ret (0, Some (Errorf_wrap "unable to download revision" err))
    | Ok resp =>
        if decide (StatusCode resp ≠ StatusOK)
        then ret (0, Some (Errorf_status (StatusCode resp)))
        else ret (copy_body w resp "unable to write revision content")
    end.

Definition PartialDownloadRevision (dc : DriveClient) (fileID revisionID : string)
    (w : Writer) (opts : PartialDownloadOptions) : M (Z * option error) :=
  if decide (fileID = "") then ret (0, Some (errors_New "file ID cannot be empty"))
  else if decide (revisionID = "")
  then ret (0, Some (errors_New "revision ID cannot be empty"))
  else if decide (StartByte opts < 0 ∨ EndByte opts < 0)
  then ret (0, Some (errors_New "byte positions cannot be negative"))
  else if decide (StartByte opts > EndByte opts)
  then ret (0, Some (errors_New "start byte must be less than or equal to end byte"))
  else
    let* r := send (Revisions_Get_Download fileID revisionID (Some (rangeHeader opts)))
                (Revisions_Download (service dc) fileID revisionID
                   (Some (rangeHeader opts))) in
    match r with
    | Err err => ret (0, Some (Errorf_wrap "unable to download revision" err))
    | Ok resp =>
        if decide (StatusCode resp ≠ StatusPartialContent ∧ StatusCode resp ≠ StatusOK)
        then ret (0, Some (Errorf_status (StatusCode resp)))
        else ret (copy_body w resp "unable to write revision content")
    end.

(** *** Upload *)

Definition upload_fields : string := "id, name, mimeType, size, parents, webViewLink".

(** [&drive.File{Name: fileName, MimeType: mimeType}], then [Parents] when
    a parent folder is given. *)
Definition fileMeta (fileName mimeType parentFolderID : string) : File :=
  mkFile "" fileName mimeType 0 ""
    (if decide (parentFolderID ≠ "") then [parentFolderID] else []) false.

(** [reader] is [None] for a nil [io.Reader]. *)
Definition UploadFileFromReader (dc : DriveClient) (reader : option Reader)
    (fileName mimeType parentFolderID : string) : M (string * option error) :=
  match reader with
  | None => ret ("", Some (errors_New "reader cannot be nil"))
  | Some reader =>
      if decide (fileName = "")
      then ret ("", Some (errors_New "file name cannot be empty"))
      else
        let mimeType :=
          if decide (mimeType = "") then "application/octet-stream" else mimeType in
        let meta := fileMeta fileName mimeType parentFolderID in
        let* r := send (Files_Create meta reader upload_fields)
                    (Create_Do (service dc) meta reader upload_fields) in
        match r with
        | Err err => ret ("", Some (Errorf_wrap "unable to upload file" err))
        | Ok uploadedFile => ret (Id uploadedFile, None)
        end
  end.

(** *** Metadata *)

Definition IsWorkspaceDocument (dc : DriveClient) (fileID : string)
    : M (bool * option error) :=
  if decide (fileID = "") then ret (false, Some (errors_New "file ID cannot be empty"))
  else
    let* r := send (Files_Get fileID "mimeType") (Get_Do (service dc) fileID "mimeType") in
    match r with
    | Err err => ret (false, Some (Errorf_wrap "unable to get file metadata" err))
    | Ok file =>
        let isWorkspace :=
          (28 <? String.length (MimeType file))%nat
          && String.eqb (substring 0 28 (MimeType file)) "application/vnd.google-apps." in
        if decide (MimeType file = "application/vnd.google-apps.folder")
        then ret (false, None)
        else ret (isWorkspace, None)
    end.

End Operations.

(** A record that passes the filter of the listing loops. *)
Definition kept (fi : FileInfo) : Prop :=
  fiSize fi ≠ 0 ∧ fiMimeType fi ≠ folderMimeType.

(** ** Input-validation errors *)

Definition validation_messages : list string :=
  ["file ID cannot be empty"; "revision ID cannot be empty";
   "byte positions cannot be negative";
   "start byte must be less than or equal to end byte";
   "export format cannot be empty"; "reader cannot be nil";
   "file name cannot be empty"].

Definition validation_error (e : error) : Prop :=
  ∃ msg, msg ∈ validation_messages ∧ e = errors_New msg.

(** ** The transfer operations under one name *)

Inductive transfer :=
| OpStreamFile
| OpPartialDownloadFile
| OpExportWorkspaceDocument
| OpDownloadRevision
| OpPartialDownloadRevision.

Record transfer_args := mkTransferArgs {
  arg_fileID : string;
  arg_revisionID : string;
  arg_format : string;
  arg_opts : PartialDownloadOptions
}.

Section Transfers.

Context `{IO}.

Definition run_transfer (op : transfer) (dc : DriveClient) (a : transfer_args)
    (w : Writer) : M (Z * option error) :=
  match op with
  | OpStreamFile => StreamFile dc (arg_fileID a) w
  | OpPartialDownloadFile => PartialDownloadFile dc (arg_fileID a) w (arg_opts a)
  | OpExportWorkspaceDocument => ExportWorkspaceDocument dc (arg_fileID a) w (arg_format a)
  | OpDownloadRevision => DownloadRevision dc (arg_fileID a) (arg_revisionID a) w
  | OpPartialDownloadRevision =>
      PartialDownloadRevision dc (arg_fileID a) (arg_revisionID a) w (arg_opts a)
  end.

(** The arguments pass the checks made before the request is sent. *)
Definition args_valid (op : transfer) (a : transfer_args) : Prop :=
  let range_ok := 0 ≤ StartByte (arg_opts a) ∧ 0 ≤ EndByte (arg_opts a)
                  ∧ StartByte (arg_opts a) ≤ EndByte (arg_opts a) in
  arg_fileID a ≠ "" ∧
  match op with
  | OpStreamFile => True
  | OpPartialDownloadFile => range_ok
  | OpExportWorkspaceDocument => arg_format a ≠ ""
  | OpDownloadRevision => arg_revisionID a ≠ ""
  | OpPartialDownloadRevision => arg_revisionID a ≠ "" ∧ range_ok
  end.

(** What the service answers to the request of the operation. *)
Definition answer (op : transfer) (dc : DriveClient) (a : transfer_args)
    : result Response :=
  match op with
  | OpStreamFile => Get_Download (service dc) (arg_fileID a)
  | OpPartialDownloadFile =>
      Revisions_Download (service dc) (arg_fileID a) (arg_fileID a)
        (Some (rangeHeader (arg_opts a)))
  | OpExportWorkspaceDocument =>
      Export_Download (service dc) (arg_fileID a) (arg_format a)
  | OpDownloadRevision =>
      Revisions_Download (service dc) (arg_fileID a) (arg_revisionID a) None
  | OpPartialDownloadRevision =>
      Revisions_Download (service dc) (arg_fileID a) (arg_revisionID a)
        (Some (rangeHeader (arg_opts a)))
  end.

(** The statuses after which the operation copies the body. *)
Definition accepted (op : transfer) (status : Z) : Prop :=
  match op with
  | OpPartialDownloadFile | OpPartialDownloadRevision => status = 200 ∨ status = 206
  | _ => status = 200
  end.

(** The context the operation puts in front of a copy error. *)
Definition copy_context (op : transfer) : string :=
  match op with
  | OpStreamFile => "unable to stream file content"
  | OpExportWorkspaceDocument => "unable to write exported content"
  | _ => "unable to write revision content"
  end.

End Transfers.

(** ** Sample listings *)

Definition folder (id name : string) (parents : list string) : File :=
  mkFile id name folderMimeType 0 "" parents false.

(** Two containers, each the parent of the other. *)
Definition two_cycle : list File :=
  [folder "a" "A" ["b"]; folder "b" "B" ["a"]].

(** Twelve nested containers, [f0] the innermost. *)
Definition deep_folders : list File :=
  [folder "f0" "N0" ["f1"]; folder "f1" "N1" ["f2"]; folder "f2" "N2" ["f3"];
   folder "f3" "N3" ["f4"]; folder "f4" "N4" ["f5"]; folder "f5" "N5" ["f6"];
   folder "f6" "N6" ["f7"]; folder "f7" "N7" ["f8"]; folder "f8" "N8" ["f9"];
   folder "f9" "N9" ["f10"]; folder "f10" "N10" ["f11"]; folder "f11" "N11" []].

Definition deep_ids : list string :=
  ["f0"; "f1"; "f2"; "f3"; "f4"; "f5"; "f6"; "f7"; "f8"; "f9"; "f10"; "f11"].

(** ** Sample services *)

(** A reader that yields [data] and then ends with [failure] ([None] for
    end of file); a writer with [room] bytes left. *)
Record sample_reader := mkSampleReader { data : string; failure : option error }.
Record sample_writer := mkSampleWriter { room : nat }.

Definition sample_copy (w : sample_writer) (r : sample_reader) : Z * option error :=
  if (String.length (data r) <=? room w)%nat
  then (Z.of_nat (String.length (data r)), failure r)
  else (Z.of_nat (room w), Some (external "short write")).

Definition sample_IO : IO :=
  {| Reader := sample_reader; Writer := sample_writer; io_Copy := sample_copy |}.

Definition not_served {A} : result A := Err (external "not served").

(** A service that answers every download with [resp] and every metadata
    or create request with [file]. *)
Definition fixed_service (resp : result (@Response sample_IO)) (file : result File)
    : @Service sample_IO :=
  @mkService sample_IO (fun _ => not_served) (fun _ _ => file) (fun _ => resp)
    (fun _ _ => resp) (fun _ _ _ => file) (fun _ _ _ => resp).

Definition token_of (offset : nat) : string :=
  NilZero.string_of_uint (Nat.to_uint offset).

Definition offset_of (token : option string) : nat :=
  match token with
  | Some t => match NilZero.uint_of_string t with
              | Some u => Nat.of_uint u
              | None => 0%nat
              end
  | None => 0%nat
  end.

Definition is_folder (f : File) : bool := String.eqb (MimeType f) folderMimeType.

(** The objects a query selects: the containers, everything, or the
    children of a container. *)
Definition selected (q : option string) (f : File) : bool :=
  match q with
  | None => true
  | Some q =>
      if String.eqb q "mimeType='application/vnd.google-apps.folder'" then is_folder f
      else if String.eqb q "trashed=false" then negb (Trashed f)
      else existsb (fun p => String.eqb q ("'" +:+ p +:+ "' in parents and trashed=false"))
             (Parents f) && negb (Trashed f)
  end.

(** A service holding [objects] that serves listings page by page, the
    page token being the offset of the next page. *)
Definition paged_List_Do (objects : list File) (call : @ListCall) : result FileList :=
  let rest := drop (offset_of (PageToken call)) (List.filter (selected (Q call)) objects) in
  let n := Z.to_nat (PageSize call) in
  Ok (mkFileList (take n rest)
        (if (n <? length rest)%nat then token_of (offset_of (PageToken call) + n) else "")).

Definition paged_service (objects : list File) : @Service sample_IO :=
  @mkService sample_IO (paged_List_Do objects) (fun _ _ => not_served)
    (fun _ => not_served) (fun _ _ => not_served) (fun _ _ _ => not_served)
    (fun _ _ _ => not_served).

(** Containers A and B without parent; F1 in A with ten bytes, F2 empty at
    the root, F3 in A with the container type. *)
Definition scenario : list File :=
  [folder "idA" "A" []; folder "idB" "B" [];
   mkFile "idF1" "F1" "text/plain" 10 "https://drive/F1" ["idA"] false;
   mkFile "idF2" "F2" "text/plain" 0 "https://drive/F2" [] false;
   mkFile "idF3" "F3" folderMimeType 7 "https://drive/F3" ["idA"] false].

(** 1001 containers at the root and one file in the last of them. *)
Definition numbered_folder (i : nat) : File :=
  folder ("id" +:+ token_of i) ("Folder" +:+ token_of i) [].

Definition sample_client (resp : result (@Response sample_IO)) (file : result File)
    : @DriveClient sample_IO :=
  @mkDriveClient sample_IO (fixed_service resp file).

Definition paged_client (objects : list File) : @DriveClient sample_IO :=
  @mkDriveClient sample_IO (paged_service objects).

Definition crowded : list File :=
  ((numbered_folder <$> seq 0 1001)
   ++ [mkFile "report" "report.pdf" "application/pdf" 42 "" ["id1000"] false])%list.

(** The listing requests restricted to containers. *)
Definition is_folder_listing (r : @Request sample_IO) : bool :=
  match r with
  | Files_List call =>
      match Q call with
      | Some q => String.eqb q "mimeType='application/vnd.google-apps.folder'"
      | None => false
      end
  | _ => false
  end.

(** ** Notions used by the further properties *)

(** [s] is the name of a container of the listing. *)
Definition listed_name (folders : list File) (s : string) : Prop :=
  ∃ f, f ∈ folders ∧ Name f = s.

(** The chain [cs] stops at its last identifier: that container has no
    parent, or its parent is not in the index. *)
Definition chain_ends (h : helper) (folders : list File) (cs : list string) : Prop :=
  match last cs ≫= index_parent h folders with
  | None => True
  | Some t => index_name folders t = None
  end.

(** Three nested containers under a root that is not listed; and a listing
    that gives the same identifier twice. *)
Definition nested : list File :=
  [folder "p" "Projects" ["d"]; folder "d" "Docs" ["root"]; folder "y" "2024" ["p"]].

Definition twice_listed : list File :=
  [folder "a" "A" ["b"]; folder "b" "B" []; folder "a" "A" []].

(** ** The two listings under one name *)

Section Listings.

Context `{IO}.

(** [None] stands for [ListFiles], [Some parentFolderID] for
    [ListFilesInFolder]. *)
Definition run_listing (entry : option string) (fuel : nat) (dc : DriveClient)
    : M (option (list FileInfo * option error)) :=
  match entry with
  | None => ListFiles fuel dc
  | Some parentFolderID => ListFilesInFolder fuel dc parentFolderID
  end.

(** The query of the file listings of each entry point. *)
Definition listing_query (entry : option string) : option string :=
  match entry with
  | None => None
  | Some parentFolderID =>
      Some (if decide (parentFolderID ≠ "")
            then "'" +:+ parentFolderID +:+ "' in parents and trashed=false"
            else "trashed=false")
  end.

Definition listing_path (entry : option string) (folders : list File)
    : list string → string :=
  match entry with
  | None => ListFilesPath.buildPath folders
  | Some _ => ListFilesInFolderPath.buildPath folders
  end.

(** The objects the listing loops leave out. *)
Definition skipped (item : File) : bool :=
  (Size item =? 0) || String.eqb (MimeType item) folderMimeType.

(** The record built for an object that is kept. *)
Definition toFileInfo (path : list string → string) (item : File) : FileInfo :=
  mkFileInfo (Id item) (Name item) (MimeType item) (Size item) (WebViewLink item)
    (Parents item) (path (Parents item)).

(** [pages_from dc q tok rs]: asked for the listing [q] from page token
    [tok], the service answers the pages [rs] one after the other, each
    page but the last announcing the next one. *)
Inductive pages_from (dc : DriveClient) (q : option string)
    : string → list FileList → Prop :=
| pages_last tok r :
    List_Do (service dc) (with_PageToken q tok) = Ok r →
    NextPageToken r = "" →
    pages_from dc q tok [r]
| pages_more tok r rs :
    List_Do (service dc) (with_PageToken q tok) = Ok r →
    NextPageToken r ≠ "" →
    pages_from dc q (NextPageToken r) rs →
    pages_from dc q tok (r :: rs).

(** The requests that fetch the pages [rs]: the first with [tok], each
    other with the token announced by the page before. *)
Fixpoint page_requests (q : option string) (tok : string) (rs : list FileList)
    : list Request :=
  match rs with
  | [] => []
  | r :: rs' => Files_List (with_PageToken q tok) :: page_requests q (NextPageToken r) rs'
  end.

End Listings.

(** One container and 120 files in it: two pages of the file listing. *)
Definition numbered_doc (i : nat) : File :=
  mkFile ("doc" +:+ token_of i) ("doc" +:+ token_of i +:+ ".txt") "text/plain"
    (Z.of_nat (S i)) "" ["idA"] false.

Definition two_pages : list File :=
  folder "idA" "A" [] :: (numbered_doc <$> seq 0 120).

Definition first_page : FileList := mkFileList (take 100 two_pages) "100".
Definition second_page : FileList := mkFileList (drop 100 two_pages) "".

(** A service that serves a first page and fails on the next one. *)
Definition flaky_List_Do (call : ListCall) : result FileList :=
  match PageToken call with
  | None => Ok (mkFileList [numbered_doc 0] "next")
  | Some _ => Err (external "backend unavailable")
  end.

Definition flaky_client : @DriveClient sample_IO :=
  @mkDriveClient sample_IO
    (@mkService sample_IO flaky_List_Do (fun _ _ => not_served)
       (fun _ => not_served) (fun _ _ => not_served) (fun _ _ _ => not_served)
       (fun _ _ _ => not_served)).

(** ** Requests and contexts of the transfer operations *)

Section TransferRequests.

Context `{IO}.

(** The request the operation sends once its arguments are checked. *)
Definition transfer_request (op : transfer) (a : transfer_args) : Request :=
  match op with
  | OpStreamFile => Files_Get_Download (arg_fileID a)
  | OpPartialDownloadFile =>
      Revisions_Get_Download (arg_fileID a) (arg_fileID a)
        (Some (rangeHeader (arg_opts a)))
  | OpExportWorkspaceDocument => Files_Export_Download (arg_fileID a) (arg_format a)
  | OpDownloadRevision =>
      Revisions_Get_Download (arg_fileID a) (arg_revisionID a) None
  | OpPartialDownloadRevision =>
      Revisions_Get_Download (arg_fileID a) (arg_revisionID a)
        (Some (rangeHeader (arg_opts a)))
  end.

(** The context the operation puts in front of an error of the request. *)
Definition request_context (op : transfer) : string :=
  match op with
  | OpStreamFile => "unable to download file"
  | OpExportWorkspaceDocument => "unable to export document"
  | _ => "unable to download revision"
  end.

End TransferRequests.

#[global] Instance accepted_dec (op : transfer) (status : Z) : Decision (accepted op status).
Proof. destruct op; simpl; apply _. Defined.

#[global] Instance args_valid_dec (op : transfer) (a : transfer_args)
  : Decision (args_valid op a).
Proof. unfold args_valid. destruct op; apply _. Defined.

Definition all_transfers : list transfer :=
  [OpStreamFile; OpPartialDownloadFile; OpExportWorkspaceDocument;
   OpDownloadRevision; OpPartialDownloadRevision].

(** ** Transfers to a local path *)

(** The local file system, as [DownloadFile] and
    [ExportWorkspaceDocumentToFile] use it: [filepath.Dir], [os.MkdirAll]
    and [os.Create] (the created file is the writer). Like the service,
    it is a parameter. *)
Class LocalFS `{IO} := {
  filepath_Dir : string → string;
  os_MkdirAll : string → Z → option error;
  os_Create : string → result Writer
}.

(** The calls made to the file system, oldest first. *)
Inductive fs_event :=
| FS_MkdirAll (dir : string) (perm : Z)
| FS_Create (path : string)
| FS_Close (path : string).

Section ToFile.

Context `{LocalFS}.

(** [0755] *)
Definition dir_perm : Z := 493.

(** [defer out.Close()] runs when the function returns: the close event
    comes after the requests of [StreamFile]. *)
Definition DownloadFile (dc : DriveClient) (fileID outputPath : string)
    (fs : list fs_event) : M ((Z * option error) * list fs_event) :=
  if decide (outputPath = "")
  then ret ((0, Some (errors_New "output path cannot be empty")), fs)
  else
    let dir := filepath_Dir outputPath in
    let fs := (fs ++ [FS_MkdirAll dir dir_perm])%list in
    match os_MkdirAll dir dir_perm with
    | Some err =>
        ret ((0, Some (Errorf_wrap "unable to create output directory" err)), fs)
    | None =>
        let fs := (fs ++ [FS_Create outputPath])%list in
        match os_Create outputPath with
        | Err err =>
            ret ((0, Some (Errorf_wrap "unable to create output file" err)), fs)
        | Ok out =>
            let* r := StreamFile dc fileID out in
            let fs := (fs ++ [FS_Close outputPath])%list in
            match r with
            | (written, Some err) =>
                ret ((written, Some (Errorf_wrap "unable to download file" err)), fs)
            | (written, None) => ret ((written, None), fs)
            end
        end
    end.

Definition ExportWorkspaceDocumentToFile (dc : DriveClient)
    (fileID outputPath format : string) (fs : list fs_event)
    : M ((Z * option error) * list fs_event) :=
  if decide (outputPath = "")
  then ret ((0, Some (errors_New "output path cannot be empty")), fs)
  else
    let dir := filepath_Dir outputPath in
    let fs := (fs ++ [FS_MkdirAll dir dir_perm])%list in
    match os_MkdirAll dir dir_perm with
    | Some err =>
        ret ((0, Some (Errorf_wrap "unable to create output directory" err)), fs)
    | None =>
        let fs := (fs ++ [FS_Create outputPath])%list in
        match os_Create outputPath with
        | Err err =>
            ret ((0, Some (Errorf_wrap "unable to create output file" err)), fs)
        | Ok out =>
            let* r := ExportWorkspaceDocument dc fileID out format in
            let fs := (fs ++ [FS_Close outputPath])%list in
            match r with
            | (written, Some err) =>
                ret ((written, Some (Errorf_wrap "unable to export document" err)), fs)
            | (written, None) => ret ((written, None), fs)
            end
        end
    end.

(** The local steps succeed and give the writer [out]. *)
Definition local_file_ready (outputPath : string) (out : Writer) : Prop :=
  outputPath ≠ "" ∧
  os_MkdirAll (filepath_Dir outputPath) dir_perm = None ∧
  os_Create outputPath = Ok out.

(** A local step fails: empty path, directory or file not created. *)
Definition local_file_fails (outputPath : string) : Prop :=
  outputPath = "" ∨
  is_Some (os_MkdirAll (filepath_Dir outputPath) dir_perm) ∨
  ∃ err, os_Create outputPath = Err err.

End ToFile.

(** A file system where every directory and file can be created, the file
    holding [room] bytes; and one where no directory can be created. *)
Definition roomy_fs (room : nat) : @LocalFS sample_IO :=
  @Build_LocalFS sample_IO (fun path => "/downloads") (fun _ _ => None)
    (fun _ => Ok (mkSampleWriter room)).

Definition readonly_fs : @LocalFS sample_IO :=
  @Build_LocalFS sample_IO (fun path => "/downloads")
    (fun _ _ => Some (external "permission denied"))
    (fun _ => Err (external "permission denied")).

(** ** Export links *)

(** A [drive.File] together with its [ExportLinks] field. *)
Record FileWithLinks := mkFileWithLinks {
  file_of : File;
  ExportLinks : gmap string string
}.

Section ExportLinks.

Context `{IO}.

(** What the service answers to the metadata request of [GetExportLinks]. *)
Variable Get_Do_links : string → string → result FileWithLinks.

(** A nil map is the empty map. [fmt.Errorf] without [%w] builds a plain
    error. *)
Definition GetExportLinks (fileID : string) : M (gmap string string * option error) :=
  if decide (fileID = "") then ret (∅, Some (errors_New "file ID cannot be empty"))
  else
    let* r := send (Files_Get fileID "exportLinks, mimeType")
                (Get_Do_links fileID "exportLinks, mimeType") in
    match r with
    | Err err => ret (∅, Some (Errorf_wrap "unable to get file metadata" err))
    | Ok file =>
        if decide (size (ExportLinks file) = 0%nat)
        then ret (∅, Some (errors_New
                             ("file is not a Google Workspace document (MIME type: "
                              +:+ MimeType (file_of file) +:+ ")")))
        else ret (ExportLinks file, None)
    end.

End ExportLinks.

(** ** Folder creation and the trash *)

Module Lifecycle.

(** The requests of these operations. *)
Inductive Request :=
| Files_Create (meta : File) (fields : string)
| Files_Update (fileID : string) (meta : File)
| Files_Delete (fileID : string).

Record Service := mkService {
  Create_Do : File → string → result File;
  Update_Do : string → File → result File;
  Delete_Do : string → option error
}.

Record DriveClient := mkDriveClient { service : Service }.

Definition M (A : Type) : Type := list Request → A * list Request.

Definition ret {A} (a : A) : M A := fun log => (a, log).

Definition send {A} (r : Request) (answer : A) : M A :=
  fun log => (answer, (log ++ [r])%list).







(** The three operations keyed by an identifier. *)
Inductive change := Trash | Restore | Delete.




(** A service that accepts everything, and one that refuses everything. *)
Definition willing : DriveClient :=
  mkDriveClient (mkService (fun meta _ => Ok (mkFile "new-folder" (Name meta)
                                                 (MimeType meta) 0 "" (Parents meta) false))
                   (fun _ meta => Ok meta) (fun _ => None)).

Definition unwilling : DriveClient :=
  mkDriveClient (mkService (fun _ _ => Err (external "forbidden"))
                   (fun _ _ => Err (external "forbidden"))
                   (fun _ => Some (external "forbidden"))).

End Lifecycle.

(** * Properties *)

(** ** Path resolution *)

Section PathResolution.

Variable folders : list File.

Lemma walk_empty_id_LF m visited parts :
  ListFilesPath.walk folders (build_folderMap folders) m "" visited parts = parts.
Proof. destruct m; reflexivity. Qed.

Lemma walk_empty_id_LFF m visited parts :
  ListFilesInFolderPath.walk (build_folderMap folders)
    (build_folderParentMap folders) m "" visited parts = parts.
Proof. destruct m; reflexivity. Qed.

Lemma walk_visited_LF m c visited parts :
  visited_at visited c = true →
  ListFilesPath.walk folders (build_folderMap folders) m c visited parts = parts.
Proof.
  intros Hv. destruct m; simpl; [reflexivity|].
  destruct (decide (c = "")); [reflexivity|]. now rewrite Hv.
Qed.

Lemma walk_visited_LFF m c visited parts :
  visited_at visited c = true →
  ListFilesInFolderPath.walk (build_folderMap folders)
    (build_folderParentMap folders) m c visited parts = parts.
Proof.
  intros Hv. destruct m; simpl; [reflexivity|].
  destruct (decide (c = "")); [reflexivity|]. now rewrite Hv.
Qed.

Lemma visited_at_insert_ne visited c x :
  c ≠ x → visited_at (<[c := true]> visited) x = visited_at visited x.
Proof. intros Hne. unfold visited_at. now rewrite lookup_insert_ne. Qed.

Lemma visited_at_insert_eq visited c :
  visited_at (<[c := true]> visited) c = true.
Proof. unfold visited_at. now rewrite lookup_insert_eq. Qed.

Lemma mark_all_visited cs : ∀ visited x,
  x ∈ cs ∨ visited_at visited x = true → visited_at (mark_all cs visited) x = true.
Proof.
  induction cs as [|c cs IH]; intros visited x Hx; simpl.
  - destruct Hx as [Hx|Hx]; [inversion Hx | exact Hx].
  - apply IH. destruct (decide (c = x)) as [-> |Hne].
    + right. apply visited_at_insert_eq.
    + destruct Hx as [Hx|Hx].
      * left. apply elem_of_cons in Hx as [Hx|Hx]; [congruence | exact Hx].
      * right. now rewrite visited_at_insert_ne.
Qed.

Lemma parent_chain_head h c cs :
  parent_chain h folders (c :: cs) → is_Some (index_name folders c).
Proof. intros Hch. exact (proj1 (Hch 0%nat c eq_refl)). Qed.

Lemma parent_chain_next h c c' cs :
  parent_chain h folders (c :: c' :: cs) → index_parent h folders c = Some c'.
Proof. intros Hch. exact (proj2 (Hch 0%nat c eq_refl) c' eq_refl). Qed.

Lemma parent_chain_tail h c cs :
  parent_chain h folders (c :: cs) → parent_chain h folders cs.
Proof. intros Hch j x Hj. exact (Hch (S j) x Hj). Qed.

Lemma parent_chain_app_l h l1 l2 :
  parent_chain h folders (l1 ++ l2) → parent_chain h folders l1.
Proof.
  intros Hch j x Hj.
  destruct (Hch j x) as [Hn Hp]; [now apply lookup_app_l_Some|].
  split; [exact Hn|]. intros c' Hc'. apply Hp. now apply lookup_app_l_Some.
Qed.

Lemma parent_chain_junction h l1 x y l2 :
  parent_chain h folders (l1 ++ x :: y :: l2) → index_parent h folders x = Some y.
Proof.
  induction l1 as [|a l1 IH]; simpl; intros Hch.
  - eapply parent_chain_next, Hch.
  - apply IH. eapply parent_chain_tail, Hch.
Qed.

Lemma chain_names_length h cs :
  parent_chain h folders cs → length (chain_names folders cs) = length cs.
Proof.
  induction cs as [|c cs IH]; intros Hch; [reflexivity|].
  unfold chain_names in *. simpl.
  destruct (parent_chain_head _ _ _ Hch) as [n Hn]. rewrite Hn. simpl.
  f_equal. apply IH. eapply parent_chain_tail, Hch.
Qed.

(** Walking along a chain of distinct, non-empty, unvisited identifiers
    whose last one leads to [t]: one name is prepended per identifier and
    the loop goes on from [t]. *)
Lemma walk_steps_LF cs : ∀ c t visited parts m,
  parent_chain InListFiles folders (c :: cs) →
  last (c :: cs) ≫= index_parent InListFiles folders = Some t →
  NoDup (c :: cs) →
  Forall (fun x => x ≠ "") (c :: cs) →
  (∀ x, x ∈ c :: cs → visited_at visited x = false) →
  ListFilesPath.walk folders (build_folderMap folders)
    (length (c :: cs) + m) c visited parts
  = ListFilesPath.walk folders (build_folderMap folders) m t
      (mark_all (c :: cs) visited) (rev (chain_names folders (c :: cs)) ++ parts).
Proof.
  induction cs as [|c' cs IH]; intros c t visited parts m Hch Hlast Hnd Hne Hunv.
  - simpl in Hlast. simpl.
    destruct (decide (c = "")) as [E|_]; [now inversion Hne|].
    rewrite (Hunv c) by (now left).
    destruct (parent_chain_head _ _ _ Hch) as [n Hn]. unfold index_name in Hn.
    rewrite Hn, Hlast. unfold chain_names, index_name. simpl. now rewrite Hn.
  - change (length (c :: c' :: cs) + m)%nat with (S (length (c' :: cs) + m)).
    cbn [ListFilesPath.walk].
    destruct (decide (c = "")) as [E|_]; [now inversion Hne|].
    rewrite (Hunv c) by (now left).
    destruct (parent_chain_head _ _ _ Hch) as [n Hn]. unfold index_name in Hn.
    rewrite Hn.
    pose proof (parent_chain_next _ _ _ _ Hch) as Hp. simpl in Hp. rewrite Hp.
    cbn [default].
    apply NoDup_cons in Hnd as [Hnotin Hnd].
    rewrite (IH c' t); [ | eapply parent_chain_tail, Hch | exact Hlast | exact Hnd
      | now inversion Hne | ].
    + unfold chain_names, index_name. simpl. rewrite Hn. simpl.
      now rewrite <- app_assoc.
    + intros x Hx. rewrite visited_at_insert_ne; [apply Hunv; now right|].
      intros ->. contradiction.
Qed.

Lemma walk_steps_LFF cs : ∀ c t visited parts m,
  parent_chain InListFilesInFolder folders (c :: cs) →
  last (c :: cs) ≫= index_parent InListFilesInFolder folders = Some t →
  NoDup (c :: cs) →
  Forall (fun x => x ≠ "") (c :: cs) →
  (∀ x, x ∈ c :: cs → visited_at visited x = false) →
  ListFilesInFolderPath.walk (build_folderMap folders) (build_folderParentMap folders)
    (length (c :: cs) + m) c visited parts
  = ListFilesInFolderPath.walk (build_folderMap folders) (build_folderParentMap folders)
      m t (mark_all (c :: cs) visited) (rev (chain_names folders (c :: cs)) ++ parts).
Proof.
  induction cs as [|c' cs IH]; intros c t visited parts m Hch Hlast Hnd Hne Hunv.
  - simpl in Hlast. simpl.
    destruct (decide (c = "")) as [E|_]; [now inversion Hne|].
    rewrite (Hunv c) by (now left).
    destruct (parent_chain_head _ _ _ Hch) as [n Hn]. unfold index_name in Hn.
    rewrite Hn.
    destruct (build_folderParentMap folders !! c) as [[|p ps]|]; simpl in Hlast;
      try discriminate.
    injection Hlast as ->. unfold chain_names, index_name. simpl. now rewrite Hn.
  - change (length (c :: c' :: cs) + m)%nat with (S (length (c' :: cs) + m)).
    cbn [ListFilesInFolderPath.walk].
    destruct (decide (c = "")) as [E|_]; [now inversion Hne|].
    rewrite (Hunv c) by (now left).
    destruct (parent_chain_head _ _ _ Hch) as [n Hn]. unfold index_name in Hn.
    rewrite Hn.
    pose proof (parent_chain_next _ _ _ _ Hch) as Hp. simpl in Hp.
    destruct (build_folderParentMap folders !! c) as [[|p ps]|]; simpl in Hp;
      try discriminate.
    injection Hp as ->.
    apply NoDup_cons in Hnd as [Hnotin Hnd].
    rewrite (IH c' t); [ | eapply parent_chain_tail, Hch | exact Hlast | exact Hnd
      | now inversion Hne | ].
    + unfold chain_names, index_name. simpl. rewrite Hn. simpl.
      now rewrite <- app_assoc.
    + intros x Hx. rewrite visited_at_insert_ne; [apply Hunv; now right|].
      intros ->. contradiction.
Qed.

Lemma parent_chain_last_leads h pre t post :
  pre ≠ [] →
  parent_chain h folders (pre ++ t :: post) →
  last pre ≫= index_parent h folders = Some t.
Proof.
  intros Hne Hch.
  destruct (last pre) as [x|] eqn:Hl.
  - apply last_Some in Hl as [l1 ->]. simpl.
    rewrite <- app_assoc in Hch. simpl in Hch.
    eapply parent_chain_junction, Hch.
  - apply last_None in Hl. contradiction.
Qed.

(** The whole loop on a chain of at most ten identifiers that ends on an
    identifier where the loop stops. *)
Lemma pathParts_chain h c cs t :
  parent_chain h folders (c :: cs) →
  last (c :: cs) ≫= index_parent h folders = Some t →
  NoDup (c :: cs) →
  Forall (fun x => x ≠ "") (c :: cs) →
  (length (c :: cs) ≤ 10)%nat →
  length (c :: cs) = 10%nat ∨ t ∈ c :: cs ∨ t = "" →
  pathParts h folders c = rev (chain_names folders (c :: cs)).
Proof.
  intros Hch Hlast Hnd Hne Hlen Hstop.
  assert (∃ m, 10 = length (c :: cs) + m)%nat as [m Hm]
    by (exists (10 - length (c :: cs))%nat; lia).
  destruct h; unfold pathParts, ListFilesPath.pathParts,
    ListFilesInFolderPath.pathParts; rewrite Hm.
  - rewrite (walk_steps_LF cs c t); auto.
    rewrite app_nil_r.
    destruct Hstop as [H10|[Hin| ->]].
    + replace m with 0%nat by lia. reflexivity.
    + apply walk_visited_LF, mark_all_visited. now left.
    + apply walk_empty_id_LF.
  - rewrite (walk_steps_LFF cs c t); auto.
    rewrite app_nil_r.
    destruct Hstop as [H10|[Hin| ->]].
    + replace m with 0%nat by lia. reflexivity.
    + apply walk_visited_LFF, mark_all_visited. now left.
    + apply walk_empty_id_LFF.
Qed.

Lemma pathParts_empty_id h : pathParts h folders "" = [].
Proof. now destruct h. Qed.

Lemma buildPath_head h c parentIDs :
  head parentIDs = Some c →
  buildPath h folders parentIDs = render_path (pathParts h folders c).
Proof.
  destruct parentIDs as [|c' rest]; simpl; [discriminate|].
  intros [= ->]. now destruct h.
Qed.

Lemma first_empty_id (cs : list string) :
  Forall (fun x => x ≠ "") cs ∨
  ∃ pre post : list string, cs = (pre ++ "" :: post)%list ∧ Forall (fun x => x ≠ "") pre.
Proof.
  induction cs as [|c cs IH]; [left; constructor|].
  destruct (decide (c = "")) as [-> |Hc].
  - right. exists [], cs. split; [reflexivity | constructor].
  - destruct IH as [IH|(pre & post & -> & Hpre)].
    + left. now constructor.
    + right. exists (c :: pre), post. split; [reflexivity | now constructor].
Qed.

Lemma foldl_insert_notin {V} (g : File → V) (fs : list File) : ∀ (m : gmap string V) k,
  k ∉ Id <$> fs →
  foldl (fun m f => <[Id f := g f]> m) m fs !! k = m !! k.
Proof.
  induction fs as [|f fs IH]; intros m k Hk; simpl; [reflexivity|].
  rewrite fmap_cons in Hk. apply not_elem_of_cons in Hk as [Hne Hk].
  rewrite IH by exact Hk. now apply lookup_insert_ne.
Qed.

Lemma foldl_insert_in {V} (g : File → V) (fs : list File) : ∀ (m : gmap string V) f,
  NoDup (Id <$> fs) → f ∈ fs →
  foldl (fun m f => <[Id f := g f]> m) m fs !! Id f = Some (g f).
Proof.
  induction fs as [|f' fs IH]; intros m f Hnd Hin; simpl; [inversion Hin|].
  rewrite fmap_cons in Hnd. apply NoDup_cons in Hnd as [Hnotin Hnd].
  apply elem_of_cons in Hin as [-> |Hin].
  - rewrite foldl_insert_notin by exact Hnotin. apply lookup_insert_eq.
  - now apply IH.
Qed.

Lemma find_parent_notin (fs : list File) k :
  k ∉ Id <$> fs → ListFilesPath.find_parent fs k = None.
Proof.
  induction fs as [|f fs IH]; intros Hk; simpl; [reflexivity|].
  rewrite fmap_cons in Hk. apply not_elem_of_cons in Hk as [Hne Hk].
  destruct (decide (Id f = k)); [congruence|]. now apply IH.
Qed.

Lemma find_parent_in (fs : list File) : ∀ f,
  NoDup (Id <$> fs) → f ∈ fs →
  ListFilesPath.find_parent fs (Id f) = head (Parents f).
Proof.
  induction fs as [|f' fs IH]; intros f Hnd Hin; simpl; [inversion Hin|].
  rewrite fmap_cons in Hnd. apply NoDup_cons in Hnd as [Hnotin Hnd].
  apply elem_of_cons in Hin as [-> |Hin].
  - destruct (decide (Id f' = Id f')); [|congruence].
    destruct (Parents f'); [now apply find_parent_notin | reflexivity].
  - destruct (decide (Id f' = Id f)) as [E|_]; [|now apply IH].
    exfalso. apply Hnotin. rewrite E. apply list_elem_of_fmap. now exists f.
Qed.

(** When the identifiers of the listing are distinct, the index of either
    closure is the listing itself: a container has the name and the first
    parent of its record. *)
Lemma index_of_unique_listing h f :
  NoDup (Id <$> folders) → f ∈ folders →
  index_name folders (Id f) = Some (Name f) ∧
  index_parent h folders (Id f) = head (Parents f).
Proof.
  intros Hnd Hin. split.
  - unfold index_name, build_folderMap. now apply (foldl_insert_in Name).
  - destruct h; simpl.
    + now apply find_parent_in.
    + unfold build_folderParentMap. now rewrite (foldl_insert_in Parents).
Qed.

(** An empty parent list resolves to the root token. *)
Lemma buildPath_no_parent h : buildPath h folders [] = "My Drive".
Proof. now destruct h. Qed.

(** An identifier missing from the index resolves to the root token. *)
Lemma buildPath_unknown_parent h c rest :
  index_name folders c = None → buildPath h folders (c :: rest) = "My Drive".
Proof.
  unfold index_name. intros Hc.
  destruct h; simpl; unfold ListFilesPath.buildPath, ListFilesPath.pathParts,
    ListFilesInFolderPath.buildPath, ListFilesInFolderPath.pathParts; simpl;
    destruct (decide (c = "")); try reflexivity;
    unfold visited_at; rewrite lookup_empty; simpl; now rewrite Hc.
Qed.

End PathResolution.

(** C3. When the first parent identifier starts a parent chain [cs] of more
    than ten distinct identifiers (identifiers are non-empty strings), all
    present in the folder index, both [buildPath] closures return the root
    token followed by the names of the ten nearest containers and nothing
    else, the farthest of the ten first and the nearest last. *)
Theorem buildPath_depth_ceiling (h : helper) (folders : list File)
    (cs parentIDs : list string) :
  parent_chain h folders cs →
  NoDup cs →
  Forall (fun c => c ≠ "") cs →
  (10 < length cs)%nat →
  head parentIDs = head cs →
  buildPath h folders parentIDs
    = "My Drive/" +:+ Join (rev (chain_names folders (take 10 cs))) "/"
  ∧ length (chain_names folders (take 10 cs)) = 10%nat.
Proof.
  intros Hch Hnd Hne Hlen Hhd.
  assert (length (take 10 cs) = 10%nat) as Hl10 by (rewrite length_take; lia).
  assert (parent_chain h folders (take 10 cs)) as Hch10.
  { apply parent_chain_app_l with (l2 := drop 10 cs). now rewrite take_drop. }
  assert (length (chain_names folders (take 10 cs)) = 10%nat) as Hn10
    by (now rewrite (chain_names_length _ h)).
  split; [|exact Hn10].
  destruct (take 10 cs) as [|c cs'] eqn:Htk; [discriminate|].
  destruct (drop 10 cs) as [|t post] eqn:Hdr.
  { apply (f_equal length) in Hdr. rewrite length_drop in Hdr. simpl in Hdr. lia. }
  assert (cs = (c :: cs') ++ t :: post)%list as Hcs
    by (now rewrite <- Htk, <- Hdr, take_drop).
  assert (head cs = Some c) as Hc by (now rewrite Hcs).
  rewrite (buildPath_head folders h c) by congruence.
  rewrite (pathParts_chain folders h c cs' t); auto.
  - unfold render_path. rewrite length_rev, Hn10. reflexivity.
  - apply parent_chain_last_leads with (post := post); [discriminate|].
    now rewrite <- Hcs.
  - rewrite Hcs in Hnd. now apply NoDup_app in Hnd as (? & _ & _).
  - rewrite Hcs in Hne. now apply Forall_app in Hne as [? _].
  - lia.
Qed.

(** A concrete listing satisfies [parent_chain] when each identifier checks. *)
Ltac check_parent_chain :=
  let j := fresh "j" in let c := fresh "c" in let Hj := fresh "Hj" in
  intros j c Hj;
  repeat (destruct j as [|j];
    [ injection Hj as <-; split;
      [ eexists; vm_compute; reflexivity
      | let c' := fresh "c'" in let Hc' := fresh "Hc'" in
        intros c' Hc'; simpl in Hc'; try discriminate Hc';
        injection Hc' as <-; vm_compute; reflexivity ]
    | simpl in Hj ]);
  try discriminate Hj.

Lemma deep_ids_chain h : parent_chain h deep_folders deep_ids.
Proof. destruct h; check_parent_chain. Qed.

Lemma two_cycle_is_cycle h : parent_cycle h two_cycle ["a"; "b"].
Proof.
  split; [destruct h; check_parent_chain|].
  split; [compute_done|].
  exists "a". split; [reflexivity|]. now destruct h.
Qed.

Lemma buildPath_depth_ceiling_witness :
  buildPath InListFiles deep_folders ["f0"; "zz"]
    = "My Drive/N9/N8/N7/N6/N5/N4/N3/N2/N1/N0" ∧
  buildPath InListFilesInFolder deep_folders ["f0"; "zz"]
    = "My Drive/N9/N8/N7/N6/N5/N4/N3/N2/N1/N0".
Proof.
  split.
  - refine (proj1 (buildPath_depth_ceiling InListFiles deep_folders deep_ids
                     ["f0"; "zz"] (deep_ids_chain _) _ _ _ _)).
    + compute_done.
    + apply Forall_forall. intros x Hx.
      repeat (apply elem_of_cons in Hx as [-> |Hx]; [discriminate|]). inversion Hx.
    + simpl; lia.
    + reflexivity.
  - refine (proj1 (buildPath_depth_ceiling InListFilesInFolder deep_folders deep_ids
                     ["f0"; "zz"] (deep_ids_chain _) _ _ _ _)).
    + compute_done.
    + apply Forall_forall. intros x Hx.
      repeat (apply elem_of_cons in Hx as [-> |Hx]; [discriminate|]). inversion Hx.
    + simpl; lia.
    + reflexivity.
Defined.

(** C1, as the code has it. When the first parent identifier starts a cycle
    [cs] of [k ≤ 10] containers of the folder index, both [buildPath]
    closures return (the loop is bounded, so they always do) the rendering
    of at most [k] resolved segments; when no identifier of the cycle is the
    empty string these are exactly the [k] names of the cycle, the first
    identifier's name last. *)
Theorem buildPath_cycle_segments (h : helper) (folders : list File)
    (cs parentIDs : list string) (k : nat) :
  parent_cycle h folders cs →
  length cs = k →
  (k ≤ 10)%nat →
  head parentIDs = head cs →
  ∃ c0, head cs = Some c0 ∧
    buildPath h folders parentIDs = render_path (pathParts h folders c0) ∧
    (length (pathParts h folders c0) ≤ k)%nat ∧
    (Forall (fun c => c ≠ "") cs →
       pathParts h folders c0 = rev (chain_names folders cs) ∧
       length (pathParts h folders c0) = k).
Proof.
  intros (Hch & Hnd & c0 & Hhd & Hback) Hk Hk10 Hpar.
  exists c0. split; [exact Hhd|].
  split; [apply buildPath_head; congruence|].
  destruct cs as [|c cs']; [discriminate|]. injection Hhd as ->.
  assert (Forall (fun c => c ≠ "") (c0 :: cs') →
          pathParts h folders c0 = rev (chain_names folders (c0 :: cs')) ∧
          length (pathParts h folders c0) = k) as Hfull.
  { intros Hne.
    assert (pathParts h folders c0 = rev (chain_names folders (c0 :: cs'))) as ->.
    { apply pathParts_chain with (t := c0); auto; [lia|]. right; left. now left. }
    split; [reflexivity|].
    now rewrite length_rev, (chain_names_length _ h). }
  split; [|exact Hfull].
  destruct (first_empty_id (c0 :: cs')) as [Hne|(pre & post & Hsplit & Hpre)].
  { destruct (Hfull Hne) as [_ ->]. lia. }
  destruct pre as [|p pre'].
  - simpl in Hsplit. injection Hsplit as -> _.
    rewrite pathParts_empty_id. simpl. lia.
  - simpl in Hsplit. injection Hsplit as <- Hcs'.
    assert (parent_chain h folders ((c0 :: pre') ++ "" :: post)) as Hch'
      by (simpl; now rewrite <- Hcs').
    rewrite (pathParts_chain folders h c0 pre' "").
    + rewrite length_rev, (chain_names_length _ h).
      * rewrite <- Hk, Hcs'. simpl. rewrite length_app. simpl. lia.
      * eapply parent_chain_app_l, Hch'.
    + eapply parent_chain_app_l, Hch'.
    + eapply parent_chain_last_leads; [discriminate | exact Hch'].
    + rewrite Hcs' in Hnd. change (NoDup ((c0 :: pre') ++ "" :: post)) in Hnd.
      now apply NoDup_app in Hnd as (? & _ & _).
    + exact Hpre.
    + apply (f_equal length) in Hcs'. rewrite length_app in Hcs'. simpl in *. lia.
    + right; right. reflexivity.
Qed.

Lemma buildPath_cycle_segments_witness :
  ∃ c0, head ["a"; "b"] = Some c0 ∧
    buildPath InListFiles two_cycle ["a"]
      = render_path (pathParts InListFiles two_cycle c0) ∧
    (length (pathParts InListFiles two_cycle c0) ≤ 2)%nat ∧
    (Forall (fun c => c ≠ "") ["a"; "b"] →
       pathParts InListFiles two_cycle c0 = rev (chain_names two_cycle ["a"; "b"]) ∧
       length (pathParts InListFiles two_cycle c0) = 2%nat).
Proof.
  apply (buildPath_cycle_segments InListFiles two_cycle ["a"; "b"] ["a"] 2).
  - apply two_cycle_is_cycle.
  - reflexivity.
  - lia.
  - reflexivity.
Defined.

(** C1 as written fails: on a cycle of two containers both closures resolve
    two segments, more than [k - 1 = 1]. *)
Lemma buildPath_cycle_counterexample :
  (∀ h, parent_cycle h two_cycle ["a"; "b"]) ∧
  length ["a"; "b"] = 2%nat ∧ (2 ≤ 10)%nat ∧
  ∀ h, buildPath h two_cycle ["a"] = "My Drive/B/A" ∧
       pathParts h two_cycle "a" = ["B"; "A"] ∧
       ¬ (length (pathParts h two_cycle "a") ≤ 2 - 1)%nat.
Proof.
  split; [exact two_cycle_is_cycle|].
  split; [reflexivity|]. split; [lia|].
  intros h. destruct h; (split; [vm_compute; reflexivity|]);
    (split; [vm_compute; reflexivity|]); vm_compute; lia.
Qed.

(** ** Transfers *)

Ltac validation msg :=
  exists (errors_New msg); split;
  [ exists msg; split; [compute_done | reflexivity] | reflexivity ].

(** C5. With a negative start, a negative end or a start beyond the end,
    [PartialDownloadFile] and [PartialDownloadRevision] return 0 bytes and
    an input-validation error, and the request log is unchanged: nothing
    was sent. *)
Theorem partial_download_rejects_bad_range `{IO} (dc : DriveClient)
    (fileID revisionID : string) (w : Writer) (opts : PartialDownloadOptions)
    (log : list Request) :
  StartByte opts < 0 ∨ EndByte opts < 0 ∨ StartByte opts > EndByte opts →
  (∃ e, validation_error e ∧
        PartialDownloadFile dc fileID w opts log = ((0, Some e), log)) ∧
  (∃ e, validation_error e ∧
        PartialDownloadRevision dc fileID revisionID w opts log = ((0, Some e), log)).
Proof.
  intros Hbad. unfold PartialDownloadFile, PartialDownloadRevision, ret. split.
  - destruct (decide (fileID = "")); [validation "file ID cannot be empty"|].
    destruct (decide (StartByte opts < 0 ∨ EndByte opts < 0));
      [validation "byte positions cannot be negative"|].
    destruct (decide (StartByte opts > EndByte opts));
      [validation "start byte must be less than or equal to end byte"|].
    lia.
  - destruct (decide (fileID = "")); [validation "file ID cannot be empty"|].
    destruct (decide (revisionID = "")); [validation "revision ID cannot be empty"|].
    destruct (decide (StartByte opts < 0 ∨ EndByte opts < 0));
      [validation "byte positions cannot be negative"|].
    destruct (decide (StartByte opts > EndByte opts));
      [validation "start byte must be less than or equal to end byte"|].
    lia.
Qed.

Lemma partial_download_rejects_bad_range_witness :
  let dc := sample_client (Ok (@mkResponse sample_IO 206 (mkSampleReader "abc" None)))
              not_served in
  let opts := mkPartialDownloadOptions 100 50 in
  (∃ e, validation_error e ∧
        @PartialDownloadFile sample_IO dc "file" (mkSampleWriter 10) opts []
        = ((0, Some e), [])) ∧
  (∃ e, validation_error e ∧
        @PartialDownloadRevision sample_IO dc "file" "rev" (mkSampleWriter 10) opts []
        = ((0, Some e), [])).
Proof.
  intros dc opts.
  apply (@partial_download_rejects_bad_range sample_IO dc "file" "rev"
           (mkSampleWriter 10) opts []).
  right; right. simpl. lia.
Defined.

Ltac run_op :=
  unfold value, requests, StreamFile, PartialDownloadFile, PartialDownloadRevision,
    ExportWorkspaceDocument, DownloadRevision, bind, send, ret, copy_body,
    StatusOK, StatusPartialContent in *;
  simpl in *.

(** C6. Once the arguments are valid, the service has answered and the copy
    succeeds, [PartialDownloadFile] and [PartialDownloadRevision] succeed
    when the status is 200 or 206 and fail with the status error for any
    other status; [StreamFile] succeeds for 200 only and fails for any other
    status, 206 included. *)
Theorem transfer_status_acceptance `{IO} (dc : DriveClient)
    (fileID revisionID : string) (w : Writer) (opts : PartialDownloadOptions)
    (resp : Response) (n : Z) (log : list Request) :
  fileID ≠ "" → revisionID ≠ "" →
  0 ≤ StartByte opts → StartByte opts ≤ EndByte opts →
  Revisions_Download (service dc) fileID fileID (Some (rangeHeader opts)) = Ok resp →
  Revisions_Download (service dc) fileID revisionID (Some (rangeHeader opts)) = Ok resp →
  Get_Download (service dc) fileID = Ok resp →
  io_Copy w (Body resp) = (n, None) →
  value (PartialDownloadFile dc fileID w opts log)
    = (if decide (StatusCode resp = 200 ∨ StatusCode resp = 206)
       then (n, None) else (0, Some (Errorf_status (StatusCode resp)))) ∧
  value (PartialDownloadRevision dc fileID revisionID w opts log)
    = (if decide (StatusCode resp = 200 ∨ StatusCode resp = 206)
       then (n, None) else (0, Some (Errorf_status (StatusCode resp)))) ∧
  value (StreamFile dc fileID w log)
    = (if decide (StatusCode resp = 200)
       then (n, None) else (0, Some (Errorf_status (StatusCode resp)))).
Proof.
  intros Hf Hr H0 Hle Hpf Hpr Hsf Hcopy. run_op.
  rewrite Hpf, Hpr, Hsf.
  destruct (decide (fileID = "")); [contradiction|].
  destruct (decide (revisionID = "")); [contradiction|].
  destruct (decide (StartByte opts < 0 ∨ EndByte opts < 0)); [lia|].
  destruct (decide (StartByte opts > EndByte opts)); [lia|].
  simpl. rewrite Hcopy.
  repeat split.
  - destruct (decide (StatusCode resp ≠ 206 ∧ StatusCode resp ≠ 200)),
      (decide (StatusCode resp = 200 ∨ StatusCode resp = 206));
      first [reflexivity | lia].
  - destruct (decide (StatusCode resp ≠ 206 ∧ StatusCode resp ≠ 200)),
      (decide (StatusCode resp = 200 ∨ StatusCode resp = 206));
      first [reflexivity | lia].
  - destruct (decide (StatusCode resp ≠ 200)), (decide (StatusCode resp = 200));
      first [reflexivity | lia].
Qed.

Lemma transfer_status_acceptance_witness :
  let resp := @mkResponse sample_IO 206 (mkSampleReader "abc" None) in
  let dc := sample_client (Ok resp) not_served in
  let opts := mkPartialDownloadOptions 0 2 in
  let w := mkSampleWriter 10 in
  value (@PartialDownloadFile sample_IO dc "file" w opts []) = (3, None) ∧
  value (@PartialDownloadRevision sample_IO dc "file" "rev" w opts []) = (3, None) ∧
  value (@StreamFile sample_IO dc "file" w []) = (0, Some (Errorf_status 206)).
Proof.
  intros resp dc opts w.
  apply (@transfer_status_acceptance sample_IO dc "file" "rev" w opts resp 3 []);
    first [discriminate | reflexivity | simpl; lia].
Defined.

(** C7. For each of the five transfer operations: when the arguments are
    valid, the service answers with a status the operation accepts, and
    [io.Copy] stops with an error after [n] bytes, the operation returns [n]
    together with that error wrapped in its context. *)
Theorem copy_failure_keeps_count `{IO} (op : transfer) (dc : DriveClient)
    (a : transfer_args) (w : Writer) (resp : Response) (n : Z) (e : error)
    (log : list Request) :
  args_valid op a →
  answer op dc a = Ok resp →
  accepted op (StatusCode resp) →
  io_Copy w (Body resp) = (n, Some e) →
  value (run_transfer op dc a w log) = (n, Some (Errorf_wrap (copy_context op) e)).
Proof.
  intros [Hf Hv] Hans Hacc Hcopy.
  destruct op; simpl in *; run_op; rewrite Hans;
    (destruct (decide (arg_fileID a = "")); [contradiction|]).
  - destruct (decide (StatusCode resp ≠ 200)); [contradiction|].
    simpl. now rewrite Hcopy.
  - destruct (decide (StartByte (arg_opts a) < 0 ∨ EndByte (arg_opts a) < 0)); [lia|].
    destruct (decide (StartByte (arg_opts a) > EndByte (arg_opts a))); [lia|].
    destruct (decide (StatusCode resp ≠ 206 ∧ StatusCode resp ≠ 200)); [lia|].
    simpl. now rewrite Hcopy.
  - destruct (decide (arg_format a = "")); [contradiction|].
    destruct (decide (StatusCode resp ≠ 200)); [contradiction|].
    simpl. now rewrite Hcopy.
  - destruct (decide (arg_revisionID a = "")); [contradiction|].
    destruct (decide (StatusCode resp ≠ 200)); [contradiction|].
    simpl. now rewrite Hcopy.
  - destruct Hv as [Hr Hv].
    destruct (decide (arg_revisionID a = "")); [contradiction|].
    destruct (decide (StartByte (arg_opts a) < 0 ∨ EndByte (arg_opts a) < 0)); [lia|].
    destruct (decide (StartByte (arg_opts a) > EndByte (arg_opts a))); [lia|].
    destruct (decide (StatusCode resp ≠ 206 ∧ StatusCode resp ≠ 200)); [lia|].
    simpl. now rewrite Hcopy.
Qed.

Lemma copy_failure_keeps_count_witness :
  let resp := @mkResponse sample_IO 200 (mkSampleReader "abcdef" None) in
  let dc := sample_client (Ok resp) not_served in
  let a := mkTransferArgs "file" "rev" "application/pdf" (mkPartialDownloadOptions 0 5) in
  Forall (fun op =>
            value (@run_transfer sample_IO op dc a (mkSampleWriter 2) [])
            = (2, Some (Errorf_wrap (copy_context op) (external "short write"))))
    [OpStreamFile; OpPartialDownloadFile; OpExportWorkspaceDocument;
     OpDownloadRevision; OpPartialDownloadRevision].
Proof.
  intros resp dc a.
  repeat (apply Forall_cons_2;
    [ apply (@copy_failure_keeps_count sample_IO _ dc a (mkSampleWriter 2) resp 2
               (external "short write") []);
      [ repeat split; first [discriminate | simpl; lia]
      | reflexivity
      | simpl; auto
      | reflexivity ]
    | ]).
  apply Forall_nil_2.
Defined.

(** C9. [PartialDownloadFile(ctx, fileID, w, opts)] is
    [PartialDownloadRevision(ctx, fileID, fileID, w, opts)]: same result and
    same requests. When the arguments pass validation the one request sent
    is a download of revision [fileID] of file [fileID] with the [Range]
    header, and no file-content download; otherwise nothing is sent. *)
Theorem partial_download_file_is_revision `{IO} (dc : DriveClient) (fileID : string)
    (w : Writer) (opts : PartialDownloadOptions) (log : list Request) :
  PartialDownloadFile dc fileID w opts log
    = PartialDownloadRevision dc fileID fileID w opts log ∧
  requests (PartialDownloadFile dc fileID w opts log)
    = (if decide (fileID ≠ "" ∧ 0 ≤ StartByte opts ∧ 0 ≤ EndByte opts
                  ∧ StartByte opts ≤ EndByte opts)
       then log ++ [Revisions_Get_Download fileID fileID (Some (rangeHeader opts))]
       else log)%list.
Proof.
  run_op.
  destruct (decide (fileID = "")) as [Hf|Hf].
  { split; [reflexivity|]. destruct (decide _) as [[? _]|_]; [contradiction|reflexivity]. }
  destruct (decide (StartByte opts < 0 ∨ EndByte opts < 0)).
  { split; [reflexivity|]. destruct (decide _) as [?|_]; [lia|reflexivity]. }
  destruct (decide (StartByte opts > EndByte opts)).
  { split; [reflexivity|]. destruct (decide _) as [?|_]; [lia|reflexivity]. }
  split; [reflexivity|].
  destruct (decide _) as [_|Hn]; [|exfalso; apply Hn; repeat split; [exact Hf|lia..]].
  destruct (Revisions_Download _ _ _ _) as [resp|err]; [|reflexivity].
  destruct (decide _); [reflexivity|]. simpl.
  now destruct (io_Copy w (Body resp)) as [? [?|]].
Qed.

(** C8. [UploadFileFromReader] with an empty name returns a validation
    error and sends nothing; with a reader, a name and an empty content
    type it sends one create request whose metadata carries
    ["application/octet-stream"], and returns the identifier the service
    gives (or the wrapped error of the service). *)
Theorem upload_from_reader_checks `{IO} (dc : DriveClient) (reader : option Reader)
    (r : Reader) (fileName mimeType parentFolderID : string) (log : list Request) :
  fileName ≠ "" →
  (∃ e, validation_error e ∧
        UploadFileFromReader dc reader "" mimeType parentFolderID log
        = (("", Some e), log)) ∧
  let meta := fileMeta fileName "application/octet-stream" parentFolderID in
  MimeType meta = "application/octet-stream" ∧
  UploadFileFromReader dc (Some r) fileName "" parentFolderID log
  = (match Create_Do (service dc) meta r upload_fields with
     | Ok uploadedFile => (Id uploadedFile, None)
     | Err err => ("", Some (Errorf_wrap "unable to upload file" err))
     end,
     (log ++ [Files_Create meta r upload_fields])%list).
Proof.
  intros Hname. split.
  - unfold UploadFileFromReader, ret.
    destruct reader; [validation "file name cannot be empty"
                     |validation "reader cannot be nil"].
  - split; [reflexivity|].
    unfold UploadFileFromReader, bind, send, ret.
    destruct (decide (fileName = "")); [contradiction|]. simpl.
    now destruct (Create_Do _ _ _ _).
Qed.

Lemma upload_from_reader_checks_witness :
  let dc := sample_client not_served
              (Ok (mkFile "new-id" "notes.txt" "application/octet-stream" 3 "" [] false)) in
  let r := mkSampleReader "abc" None in
  (∃ e, validation_error e ∧
        @UploadFileFromReader sample_IO dc (Some r) "" "text/plain" "" []
        = (("", Some e), [])) ∧
  let meta := fileMeta "notes.txt" "application/octet-stream" "" in
  MimeType meta = "application/octet-stream" ∧
  @UploadFileFromReader sample_IO dc (Some r) "notes.txt" "" "" []
  = (("new-id", None), [@Files_Create sample_IO meta r upload_fields]).
Proof.
  intros dc r.
  apply (@upload_from_reader_checks sample_IO dc (Some r) r "notes.txt" "text/plain" "" []).
  discriminate.
Defined.

(** ** Metadata *)

(** C10. When the identifier is not empty and the service returns the
    metadata, [IsWorkspaceDocument] returns without error, and returns
    [true] exactly when the content type is longer than 28 bytes, starts
    with ["application/vnd.google-apps."] and is not the folder type; for
    the folder type it returns [false]. *)
Theorem IsWorkspaceDocument_spec `{IO} (dc : DriveClient) (fileID : string)
    (file : File) (log : list Request) :
  fileID ≠ "" →
  Get_Do (service dc) fileID "mimeType" = Ok file →
  ∃ b : bool,
    value (IsWorkspaceDocument dc fileID log) = (b, None) ∧
    (b = true ↔
       (28 < String.length (MimeType file))%nat ∧
       String.prefix "application/vnd.google-apps." (MimeType file) = true ∧
       MimeType file ≠ "application/vnd.google-apps.folder") ∧
    (MimeType file = "application/vnd.google-apps.folder" → b = false).
Proof.
  intros Hf Hget.
  unfold IsWorkspaceDocument, value, bind, send, ret. simpl.
  destruct (decide (fileID = "")); [contradiction|]. rewrite Hget.
  assert (∀ m, String.eqb (substring 0 28 m) "application/vnd.google-apps." = true
               ↔ String.prefix "application/vnd.google-apps." m = true) as Hpre.
  { intros m. rewrite String.eqb_eq.
    symmetry. apply (String.prefix_correct "application/vnd.google-apps." m). }
  destruct (decide (MimeType file = "application/vnd.google-apps.folder")) as [Hfold|Hfold].
  - exists false. split; [reflexivity|]. split; [|reflexivity].
    split; [discriminate|]. intros (_ & _ & Hne). contradiction.
  - eexists. split; [reflexivity|]. split; [|contradiction].
    rewrite andb_true_iff, Nat.ltb_lt, Hpre. tauto.
Qed.

Lemma IsWorkspaceDocument_spec_witness :
  let file := mkFile "doc" "Notes" "application/vnd.google-apps.document" 0 "" [] false in
  ∃ b : bool,
    value (@IsWorkspaceDocument sample_IO (sample_client not_served (Ok file)) "doc" [])
    = (b, None) ∧
    (b = true ↔
       (28 < String.length (MimeType file))%nat ∧
       String.prefix "application/vnd.google-apps." (MimeType file) = true ∧
       MimeType file ≠ "application/vnd.google-apps.folder") ∧
    (MimeType file = "application/vnd.google-apps.folder" → b = false).
Proof.
  intros file.
  apply (@IsWorkspaceDocument_spec sample_IO (sample_client not_served (Ok file))
           "doc" file []).
  - discriminate.
  - reflexivity.
Defined.

(** ** Enumeration *)

Lemma ListFiles_page_kept folders items : ∀ files,
  Forall kept files → Forall kept (ListFiles_page folders files items).
Proof.
  unfold ListFiles_page.
  induction items as [|item items IH]; intros files Hfiles; simpl; [exact Hfiles|].
  apply IH.
  destruct (Size item =? 0) eqn:Hsize; [exact Hfiles|].
  destruct (String.eqb (MimeType item) folderMimeType) eqn:Hmime; [exact Hfiles|].
  simpl. apply Forall_app. split; [exact Hfiles|].
  constructor; [|constructor]. split; simpl.
  - now apply Z.eqb_neq.
  - now apply String.eqb_neq.
Qed.

Lemma ListFiles_loop_kept `{IO} fuel : ∀ dc folders pageToken files log out err,
  Forall kept files →
  value (ListFiles_loop fuel dc folders pageToken files log) = Some (out, err) →
  Forall kept out.
Proof.
  induction fuel as [|fuel IH]; intros dc folders pageToken files log out err Hfiles;
    simpl; [discriminate|].
  unfold bind, send. simpl.
  destruct (List_Do _ _) as [r|e]; simpl.
  - destruct (decide (NextPageToken r = "")).
    + unfold value, ret. simpl. intros [= <- _]. now apply ListFiles_page_kept.
    + apply IH. now apply ListFiles_page_kept.
  - unfold value, ret. simpl. intros [= <- _]. constructor.
Qed.

(** With enough fuel for the pages the service announces, the listing
    returns. *)
Lemma ListFiles_loop_returns `{IO} fuel : ∀ n dc folders pageToken files log,
  listing_ends n dc None pageToken = true → (n ≤ fuel)%nat →
  ∃ out, value (ListFiles_loop fuel dc folders pageToken files log) = Some out.
Proof.
  induction fuel as [|fuel IH]; intros n dc folders pageToken files log Hends Hle.
  - replace n with 0%nat in Hends by lia. discriminate.
  - destruct n as [|n]; [discriminate|]. simpl in Hends. simpl.
    unfold bind, send. simpl.
    destruct (List_Do _ _) as [r|e]; simpl; [|eexists; reflexivity].
    destruct (decide (NextPageToken r = "")); [eexists; reflexivity|].
    apply (IH n); [exact Hends | lia].
Qed.

Lemma ListFiles_returns `{IO} fuel n dc log :
  listing_ends n dc None "" = true → (n ≤ fuel)%nat →
  ∃ out, value (ListFiles fuel dc log) = Some out.
Proof.
  intros Hends Hle. unfold ListFiles, bind, send. simpl.
  destruct (List_Do _ _) as [r|e]; simpl; [|eexists; reflexivity].
  now apply (ListFiles_loop_returns fuel n).
Qed.

(** C4. In the scenario of the specification (containers A and B, F1 of ten
    bytes in A, F2 empty, F3 of container type in A) [ListFiles] returns F1
    alone, with folder path ["My Drive/A"], after one folder listing and
    one file listing. In general no record returned by [ListFiles] has
    size zero or the container type. *)
Theorem ListFiles_skips_folders_and_empty_files :
  (∀ fuel,
     @ListFiles sample_IO (S fuel) (paged_client scenario) []
     = (Some ([mkFileInfo "idF1" "F1" "text/plain" 10 "https://drive/F1" ["idA"]
                 "My Drive/A"], None),
        [Files_List folders_call; Files_List (with_PageToken None "")])) ∧
  (∀ (io : IO) (fuel : nat) (dc : DriveClient) (log : list Request)
     (files : list FileInfo) (err : option error),
     value (ListFiles fuel dc log) = Some (files, err) →
     Forall (fun fi => fiSize fi ≠ 0 ∧ fiMimeType fi ≠ folderMimeType) files).
Proof.
  split.
  - intros fuel. vm_compute. reflexivity.
  - intros io fuel dc log files err. unfold ListFiles, bind, send. simpl.
    destruct (List_Do _ _) as [r|e]; simpl.
    + apply ListFiles_loop_kept. constructor.
    + unfold value, ret. simpl. intros [= <- _]. constructor.
Qed.

Lemma ListFiles_skips_folders_and_empty_files_witness :
  Forall (fun fi => fiSize fi ≠ 0 ∧ fiMimeType fi ≠ folderMimeType)
    [mkFileInfo "idF1" "F1" "text/plain" 10 "https://drive/F1" ["idA"] "My Drive/A"].
Proof.
  apply (proj2 ListFiles_skips_folders_and_empty_files sample_IO 1%nat
           (paged_client scenario) [] _ None).
  vm_compute. reflexivity.
Defined.

(** The paging loop only sends file listings. *)
Lemma ListFiles_loop_requests `{IO} fuel : ∀ dc folders pageToken files log,
  ∃ rest, requests (ListFiles_loop fuel dc folders pageToken files log)
          = (log ++ rest)%list ∧
          Forall (fun r => ∃ tok, r = Files_List (with_PageToken None tok)) rest.
Proof.
  induction fuel as [|fuel IH]; intros dc folders pageToken files log; simpl.
  - exists []. split; [now rewrite app_nil_r | constructor].
  - unfold bind, send. simpl.
    destruct (List_Do _ _) as [r|e]; simpl.
    2: { exists [Files_List (with_PageToken None pageToken)].
         split; [reflexivity|]. constructor; [now exists pageToken | constructor]. }
    destruct (decide (NextPageToken r = "")).
    { exists [Files_List (with_PageToken None pageToken)].
      split; [reflexivity|]. constructor; [now exists pageToken | constructor]. }
    destruct (IH dc folders (NextPageToken r) (ListFiles_page folders files (Files r))
                (log ++ [Files_List (with_PageToken None pageToken)])%list)
      as (rest & -> & Hrest).
    exists (Files_List (with_PageToken None pageToken) :: rest).
    split; [now rewrite <- app_assoc|].
    constructor; [now exists pageToken | exact Hrest].
Qed.

(** C2, on the code. Whatever the service answers, [ListFiles] sends the
    container listing once, without page token, and then only file
    listings: a second page of containers is never asked for. So when the
    service holds 1001 containers and serves the last one on the second
    page of the container listing, the file stored in that container is
    given the root path by [ListFiles] and [ListFilesInFolder] instead of
    ["My Drive/Folder1000"]. *)
Theorem folder_index_stops_at_first_page :
  (∀ (io : IO) (fuel : nat) (dc : DriveClient) (log : list Request),
     ∃ rest, requests (ListFiles fuel dc log)
             = (log ++ Files_List folders_call :: rest)%list ∧
             Forall (fun r => ∃ tok, r = Files_List (with_PageToken None tok)) rest) ∧
  let dc := paged_client crowded in
  let report path :=
    mkFileInfo "report" "report.pdf" "application/pdf" 42 "" ["id1000"] path in
  List_Do (service dc) folders_call
    = Ok (mkFileList (numbered_folder <$> seq 0 1000) "1000") ∧
  List_Do (service dc) (mkListCall (Q folders_call) (Fields folders_call) 1000 (Some "1000"))
    = Ok (mkFileList [folder "id1000" "Folder1000" []] "") ∧
  value (@ListFiles sample_IO 11 dc []) = Some ([report "My Drive"], None) ∧
  List.filter is_folder_listing (requests (@ListFiles sample_IO 11 dc []))
    = [Files_List folders_call] ∧
  value (@ListFilesInFolder sample_IO 1 dc "id1000" []) = Some ([report "My Drive"], None) ∧
  List.filter is_folder_listing (requests (@ListFilesInFolder sample_IO 1 dc "id1000" []))
    = [Files_List folders_call] ∧
  ListFilesPath.buildPath (numbered_folder <$> seq 0 1001) ["id1000"]
    = "My Drive/Folder1000".
Proof.
  split.
  - intros io fuel dc log. unfold ListFiles, bind, send. simpl.
    destruct (List_Do _ _) as [r|e]; simpl.
    + destruct (ListFiles_loop_requests fuel dc (Files r) "" []
                  (log ++ [Files_List folders_call])%list) as (rest & -> & Hrest).
      exists rest. split; [now rewrite <- app_assoc | exact Hrest].
    + exists []. split; [reflexivity | constructor].
  - repeat split; vm_compute; reflexivity.
Qed.

(** ** Checks on concrete values *)

Example rangeHeader_first_kilobyte :
  rangeHeader (mkPartialDownloadOptions 0 1023) = "bytes=0-1023".
Proof. reflexivity. Qed.

Example self_parent_resolves_once :
  ∀ h, buildPath h [folder "a" "A" ["a"]] ["a"] = "My Drive/A".
Proof. intros h. destruct h; vm_compute; reflexivity. Qed.

Example broken_chain_keeps_segments :
  ∀ h, buildPath h [folder "a" "A" ["gone"]] ["a"; "b"] = "My Drive/A".
Proof. intros h. destruct h; vm_compute; reflexivity. Qed.

Example bare_prefix_is_not_workspace :
  value (@IsWorkspaceDocument sample_IO
           (sample_client not_served
              (Ok (mkFile "x" "x" "application/vnd.google-apps." 0 "" [] false))) "x" [])
  = (false, None).
Proof. vm_compute. reflexivity. Qed.

Example folder_is_not_workspace :
  value (@IsWorkspaceDocument sample_IO
           (sample_client not_served (Ok (folder "x" "x" []))) "x" [])
  = (false, None).
Proof. vm_compute. reflexivity. Qed.

Example full_download_rejects_partial_content :
  @StreamFile sample_IO
    (sample_client (Ok (@mkResponse sample_IO 206 (mkSampleReader "abc" None))) not_served)
    "file" (mkSampleWriter 10) []
  = ((0, Some (Errorf_status 206)), [@Files_Get_Download sample_IO "file"]).
Proof. vm_compute. reflexivity. Qed.

(** * Further properties of the code *)

(** ** Path resolution: bounds and soundness *)

Lemma walk_length_LF folders fm n : ∀ c visited parts,
  (length (ListFilesPath.walk folders fm n c visited parts) ≤ length parts + n)%nat.
Proof.
  induction n as [|n IH]; intros c visited parts; simpl; [lia|].
  destruct (decide (c = "")); [lia|].
  destruct (visited_at visited c); [lia|].
  destruct (fm !! c) as [name|]; [|lia].
  etransitivity; [apply IH|]. simpl. lia.
Qed.

Lemma walk_length_LFF fm pm n : ∀ c visited parts,
  (length (ListFilesInFolderPath.walk fm pm n c visited parts) ≤ length parts + n)%nat.
Proof.
  induction n as [|n IH]; intros c visited parts; simpl; [lia|].
  destruct (decide (c = "")); [lia|].
  destruct (visited_at visited c); [lia|].
  destruct (fm !! c) as [name|]; [|lia].
  destruct (pm !! c) as [[|p ps]|]; simpl; try lia.
  etransitivity; [apply IH|]. simpl. lia.
Qed.

(** X1. Whatever the listing and the identifier, neither closure resolves
    more than ten segments. *)
Theorem pathParts_at_most_ten (h : helper) (folders : list File) (c : string) :
  (length (pathParts h folders c) ≤ 10)%nat.
Proof.
  destruct h; unfold pathParts, ListFilesPath.pathParts, ListFilesInFolderPath.pathParts.
  - apply (walk_length_LF folders _ 10 c ∅ []).
  - apply (walk_length_LFF _ _ 10 c ∅ []).
Qed.

Lemma folderMap_lookup_listed (fs : list File) : ∀ (m : gmap string string) c name,
  foldl (fun m f => <[Id f := Name f]> m) m fs !! c = Some name →
  m !! c = Some name ∨ ∃ f, f ∈ fs ∧ Id f = c ∧ Name f = name.
Proof.
  induction fs as [|f fs IH]; intros m c name Hl; simpl in Hl; [now left|].
  apply IH in Hl as [Hl|(g & Hg & Hid & Hname)].
  - destruct (decide (Id f = c)) as [E|E].
    + rewrite E, lookup_insert_eq in Hl. injection Hl as Hl.
      right. exists f. split; [now left | now split].
    + rewrite lookup_insert_ne in Hl by exact E. now left.
  - right. exists g. split; [now right | now split].
Qed.

Lemma walk_listed_LF folders n : ∀ c visited parts,
  Forall (listed_name folders) parts →
  Forall (listed_name folders)
    (ListFilesPath.walk folders (build_folderMap folders) n c visited parts).
Proof.
  induction n as [|n IH]; intros c visited parts Hp; simpl; [exact Hp|].
  destruct (decide (c = "")); [exact Hp|].
  destruct (visited_at visited c); [exact Hp|].
  destruct (build_folderMap folders !! c) as [name|] eqn:Hn; [|exact Hp].
  apply IH. constructor; [|exact Hp].
  apply folderMap_lookup_listed in Hn as [Hn|(f & Hf & _ & Hname)].
  - now rewrite lookup_empty in Hn.
  - now exists f.
Qed.

Lemma walk_listed_LFF folders n : ∀ c visited parts,
  Forall (listed_name folders) parts →
  Forall (listed_name folders)
    (ListFilesInFolderPath.walk (build_folderMap folders)
       (build_folderParentMap folders) n c visited parts).
Proof.
  induction n as [|n IH]; intros c visited parts Hp; simpl; [exact Hp|].
  destruct (decide (c = "")); [exact Hp|].
  destruct (visited_at visited c); [exact Hp|].
  destruct (build_folderMap folders !! c) as [name|] eqn:Hn; [|exact Hp].
  assert (listed_name folders name) as Hname.
  { apply folderMap_lookup_listed in Hn as [Hn|(f & Hf & _ & Hname)].
    - now rewrite lookup_empty in Hn.
    - now exists f. }
  destruct (build_folderParentMap folders !! c) as [[|p ps]|];
    try (constructor; assumption).
  apply IH. now constructor.
Qed.

(** X2. Every segment either closure resolves is the name of a container of
    the folder listing. *)
Theorem pathParts_are_listed_names (h : helper) (folders : list File) (c : string) :
  Forall (fun s => ∃ f, f ∈ folders ∧ Name f = s) (pathParts h folders c).
Proof.
  destruct h; unfold pathParts, ListFilesPath.pathParts, ListFilesInFolderPath.pathParts.
  - apply (walk_listed_LF folders 10 c ∅ []). constructor.
  - apply (walk_listed_LFF folders 10 c ∅ []). constructor.
Qed.


Lemma walk_unknown_LF folders m t visited parts :
  index_name folders t = None →
  ListFilesPath.walk folders (build_folderMap folders) m t visited parts = parts.
Proof.
  unfold index_name. intros Ht. destruct m; simpl; [reflexivity|].
  destruct (decide (t = "")); [reflexivity|].
  destruct (visited_at visited t); [reflexivity|]. now rewrite Ht.
Qed.

Lemma walk_unknown_LFF folders m t visited parts :
  index_name folders t = None →
  ListFilesInFolderPath.walk (build_folderMap folders) (build_folderParentMap folders)
    m t visited parts = parts.
Proof.
  unfold index_name. intros Ht. destruct m; simpl; [reflexivity|].
  destruct (decide (t = "")); [reflexivity|].
  destruct (visited_at visited t); [reflexivity|]. now rewrite Ht.
Qed.

Lemma mark_all_unvisited cs : ∀ visited x,
  x ∉ cs → visited_at visited x = false → visited_at (mark_all cs visited) x = false.
Proof.
  induction cs as [|c cs IH]; intros visited x Hx Hv; simpl; [exact Hv|].
  apply not_elem_of_cons in Hx as [Hne Hx].
  apply IH; [exact Hx|]. rewrite visited_at_insert_ne; [exact Hv | congruence].
Qed.

(** The step on the last identifier of a chain that ends. *)
Lemma walk_end h folders m l visited parts name :
  l ≠ "" → visited_at visited l = false →
  index_name folders l = Some name →
  chain_ends h folders [l] →
  match h with
  | InListFiles =>
      ListFilesPath.walk folders (build_folderMap folders) (S m) l visited parts
  | InListFilesInFolder =>
      ListFilesInFolderPath.walk (build_folderMap folders)
        (build_folderParentMap folders) (S m) l visited parts
  end = name :: parts.
Proof.
  unfold chain_ends, index_name. simpl. intros Hl Hv Hn Hend.
  destruct h; simpl; simpl in Hend.
  - destruct (decide (l = "")); [contradiction|]. rewrite Hv, Hn.
    destruct (ListFilesPath.find_parent folders l) as [t|]; simpl.
    + now apply walk_unknown_LF.
    + apply walk_visited_LF, visited_at_insert_eq.
  - destruct (decide (l = "")); [contradiction|]. rewrite Hv, Hn.
    destruct (build_folderParentMap folders !! l) as [[|p ps]|]; simpl in Hend;
      try reflexivity.
    now apply walk_unknown_LFF.
Qed.

Lemma visited_at_empty x : visited_at ∅ x = false.
Proof. unfold visited_at. now rewrite lookup_empty. Qed.

Lemma pathParts_full_chain h folders cs c :
  parent_chain h folders cs → NoDup cs → Forall (fun c => c ≠ "") cs →
  (length cs ≤ 10)%nat → head cs = Some c → chain_ends h folders cs →
  pathParts h folders c = rev (chain_names folders cs).
Proof.
  intros Hch Hnd Hne Hlen Hhd Hend.
  destruct (last cs) as [l|] eqn:Hlast;
    [|apply last_None in Hlast; subst cs; discriminate].
  pose proof Hlast as Hsplit. apply last_Some in Hsplit as [init ->].
  assert (chain_ends h folders [l]) as Hend'.
  { unfold chain_ends in *. now rewrite Hlast in Hend. }
  assert (∃ name, index_name folders l = Some name) as [name Hname].
  { destruct (Hch (length init) l) as [[n Hn] _]; [|now exists n].
    rewrite lookup_app_r by lia. now rewrite Nat.sub_diag. }
  assert (chain_names folders (init ++ [l]) = (chain_names folders init ++ [name])%list)
    as Hnames.
  { unfold chain_names. rewrite omap_app. simpl. now rewrite Hname. }
  rewrite Hnames, rev_app_distr. simpl.
  apply Forall_app in Hne as [Hne_init Hne_l]. apply Forall_cons_1 in Hne_l as [Hl _].
  apply NoDup_app in Hnd as (Hnd_init & Hdisj & _).
  rewrite length_app in Hlen. simpl in Hlen.
  destruct init as [|c0 init'].
  - simpl in Hhd. injection Hhd as <-.
    pose proof (walk_end h folders 9 l ∅ [] name Hl (visited_at_empty l) Hname Hend')
      as Hw.
    destruct h; exact Hw.
  - simpl in Hhd. injection Hhd as <-.
    assert (∃ m, 10 = length (c0 :: init') + S m)%nat as [m Hm]
      by (exists (9 - length (c0 :: init'))%nat; lia).
    assert (l ∉ c0 :: init') as Hnotin.
    { intros Hin. apply (Hdisj l Hin). now left. }
    assert (last (c0 :: init') ≫= index_parent h folders = Some l) as Hleads.
    { apply parent_chain_last_leads with (post := []); [discriminate | exact Hch]. }
    assert (parent_chain h folders (c0 :: init')) as Hch_init
      by (eapply parent_chain_app_l, Hch).
    pose proof (walk_end h folders m l (mark_all (c0 :: init') ∅)
                  (rev (chain_names folders (c0 :: init')) ++ []) name Hl
                  (mark_all_unvisited _ ∅ _ Hnotin (visited_at_empty l)) Hname Hend') as Hw.
    destruct h; unfold pathParts, ListFilesPath.pathParts,
      ListFilesInFolderPath.pathParts; rewrite Hm.
    + rewrite (walk_steps_LF folders init' c0 l);
        auto using visited_at_empty.
      rewrite Hw. now rewrite app_nil_r.
    + rewrite (walk_steps_LFF folders init' c0 l);
        auto using visited_at_empty.
      rewrite Hw. now rewrite app_nil_r.
Qed.

(** X4. For a container hierarchy as the service normally gives it: when
    the first parent starts a chain of at most ten distinct, non-empty
    identifiers of the index, and the chain stops (its last container has
    no parent, or a parent that is not in the index), both closures return
    the root token followed by the names of all the containers of the
    chain, outermost first. *)
Theorem buildPath_full_chain (h : helper) (folders : list File)
    (cs parentIDs : list string) :
  parent_chain h folders cs →
  NoDup cs →
  Forall (fun c => c ≠ "") cs →
  (1 ≤ length cs ≤ 10)%nat →
  head parentIDs = head cs →
  chain_ends h folders cs →
  buildPath h folders parentIDs
    = "My Drive/" +:+ Join (rev (chain_names folders cs)) "/".
Proof.
  intros Hch Hnd Hne [Hlen1 Hlen] Hhd Hend.
  destruct cs as [|c cs']; [simpl in Hlen1; lia|].
  rewrite (buildPath_head folders h c) by exact Hhd.
  rewrite (pathParts_full_chain h folders (c :: cs') c); auto.
  unfold render_path. rewrite length_rev, (chain_names_length _ h) by exact Hch.
  reflexivity.
Qed.

Lemma nested_chain h : parent_chain h nested ["y"; "p"; "d"].
Proof. destruct h; check_parent_chain. Qed.

Lemma buildPath_full_chain_witness :
  buildPath InListFiles nested ["y"] = "My Drive/Docs/Projects/2024" ∧
  buildPath InListFilesInFolder nested ["y"] = "My Drive/Docs/Projects/2024".
Proof.
  split.
  - apply (buildPath_full_chain InListFiles nested ["y"; "p"; "d"] ["y"]
             (nested_chain _)).
    + compute_done.
    + repeat (apply Forall_cons_2; [discriminate|]). apply Forall_nil_2.
    + simpl; lia.
    + reflexivity.
    + vm_compute. reflexivity.
  - apply (buildPath_full_chain InListFilesInFolder nested ["y"; "p"; "d"] ["y"]
             (nested_chain _)).
    + compute_done.
    + repeat (apply Forall_cons_2; [discriminate|]). apply Forall_nil_2.
    + simpl; lia.
    + reflexivity.
    + vm_compute. reflexivity.
Defined.

(** ** The two closures agree on listings with distinct identifiers *)

Lemma parent_lookups_agree (folders : list File) (c : string) :
  NoDup (Id <$> folders) →
  ListFilesPath.find_parent folders c = build_folderParentMap folders !! c ≫= head.
Proof.
  intros Hnd. destruct (decide (c ∈ Id <$> folders)) as [Hin|Hnotin].
  - apply list_elem_of_fmap in Hin as (f & -> & Hf).
    rewrite (find_parent_in folders f Hnd Hf).
    unfold build_folderParentMap. now rewrite (foldl_insert_in Parents folders ∅ f Hnd Hf).
  - rewrite (find_parent_notin folders c Hnotin).
    unfold build_folderParentMap.
    rewrite (foldl_insert_notin Parents folders ∅ c Hnotin). now rewrite lookup_empty.
Qed.

Lemma walks_agree (folders : list File) n : ∀ c visited parts,
  NoDup (Id <$> folders) →
  ListFilesPath.walk folders (build_folderMap folders) n c visited parts
  = ListFilesInFolderPath.walk (build_folderMap folders)
      (build_folderParentMap folders) n c visited parts.
Proof.
  induction n as [|n IH]; intros c visited parts Hnd; simpl; [reflexivity|].
  destruct (decide (c = "")); [reflexivity|].
  destruct (visited_at visited c); [reflexivity|].
  destruct (build_folderMap folders !! c) as [name|]; [|reflexivity].
  rewrite (parent_lookups_agree folders c Hnd).
  destruct (build_folderParentMap folders !! c) as [[|p ps]|]; simpl.
  - apply walk_visited_LF, visited_at_insert_eq.
  - now apply IH.
  - apply walk_visited_LF, visited_at_insert_eq.
Qed.

(** X5. When the identifiers of the folder listing are distinct, the
    closure of [ListFiles] (which scans the listing for the parent) and the
    closure of [ListFilesInFolder] (which reads a parent map) return the
    same path for every parent list. *)
Theorem buildPath_closures_agree (folders : list File) (parentIDs : list string) :
  NoDup (Id <$> folders) →
  ListFilesPath.buildPath folders parentIDs
  = ListFilesInFolderPath.buildPath folders parentIDs.
Proof.
  intros Hnd. destruct parentIDs as [|c rest]; [reflexivity|].
  unfold ListFilesPath.buildPath, ListFilesInFolderPath.buildPath,
    ListFilesPath.pathParts, ListFilesInFolderPath.pathParts.
  now rewrite (walks_agree folders 10 c ∅ [] Hnd).
Qed.

Lemma buildPath_closures_agree_witness :
  ListFilesPath.buildPath nested ["y"; "other"]
  = ListFilesInFolderPath.buildPath nested ["y"; "other"].
Proof.
  apply (buildPath_closures_agree nested ["y"; "other"]). compute_done.
Defined.

(** Without distinct identifiers the closures can differ: the scan takes
    the first record that has a parent, the map keeps the last record. *)
Example closures_differ_on_repeated_id :
  ListFilesPath.buildPath twice_listed ["a"] = "My Drive/B/A" ∧
  ListFilesInFolderPath.buildPath twice_listed ["a"] = "My Drive/A".
Proof. split; vm_compute; reflexivity. Qed.

(** ** Enumeration: what is returned, and in which order *)

Lemma ListFiles_page_spec folders items : ∀ files,
  ListFiles_page folders files items
  = (files ++ (toFileInfo (ListFilesPath.buildPath folders)
               <$> List.filter (fun item => negb (skipped item)) items))%list.
Proof.
  unfold ListFiles_page, skipped.
  induction items as [|item items IH]; intros files; simpl; [now rewrite app_nil_r|].
  rewrite IH.
  destruct ((Size item =? 0) || String.eqb (MimeType item) folderMimeType); simpl;
    [reflexivity|].
  now rewrite <- app_assoc.
Qed.

Lemma ListFilesInFolder_page_spec folders items : ∀ files,
  ListFilesInFolder_page folders files items
  = (files ++ (toFileInfo (ListFilesInFolderPath.buildPath folders)
               <$> List.filter (fun item => negb (skipped item)) items))%list.
Proof.
  unfold ListFilesInFolder_page, skipped.
  induction items as [|item items IH]; intros files; simpl; [now rewrite app_nil_r|].
  rewrite IH, (orb_comm (Size item =? 0)).
  destruct (String.eqb (MimeType item) folderMimeType || (Size item =? 0)); simpl;
    [reflexivity|].
  now rewrite <- app_assoc.
Qed.

Lemma ListFiles_loop_pages `{IO} dc folders rs : ∀ tok,
  pages_from dc None tok rs →
  ∀ fuel files log, (length rs ≤ fuel)%nat →
  ListFiles_loop fuel dc folders tok files log
  = (Some ((files ++ (toFileInfo (ListFilesPath.buildPath folders)
                      <$> List.filter (fun item => negb (skipped item))
                            (concat (Files <$> rs))))%list, None),
     (log ++ page_requests None tok rs)%list).
Proof.
  intros tok Hpages.
  induction Hpages as [tok r Hr Hlast|tok r rs Hr Hmore Hpages IH];
    intros fuel files log Hfuel;
    (destruct fuel as [|fuel]; [simpl in Hfuel; lia|]);
    simpl; unfold bind, send; simpl; rewrite Hr; simpl.
  - destruct (decide (NextPageToken r = "")); [|contradiction].
    unfold ret. now rewrite ListFiles_page_spec, app_nil_r.
  - destruct (decide (NextPageToken r = "")); [contradiction|].
    rewrite IH by (simpl in Hfuel; lia).
    rewrite ListFiles_page_spec, List.filter_app, fmap_app.
    now rewrite <- !app_assoc.
Qed.

Lemma ListFilesInFolder_loop_pages `{IO} dc query folders rs : ∀ tok,
  pages_from dc (Some query) tok rs →
  ∀ fuel files log, (length rs ≤ fuel)%nat →
  ListFilesInFolder_loop fuel dc query folders tok files log
  = (Some ((files ++ (toFileInfo (ListFilesInFolderPath.buildPath folders)
                      <$> List.filter (fun item => negb (skipped item))
                            (concat (Files <$> rs))))%list, None),
     (log ++ page_requests (Some query) tok rs)%list).
Proof.
  intros tok Hpages.
  induction Hpages as [tok r Hr Hlast|tok r rs Hr Hmore Hpages IH];
    intros fuel files log Hfuel;
    (destruct fuel as [|fuel]; [simpl in Hfuel; lia|]);
    simpl; unfold bind, send; simpl; rewrite Hr; simpl.
  - destruct (decide (NextPageToken r = "")); [|contradiction].
    unfold ret. now rewrite ListFilesInFolder_page_spec, app_nil_r.
  - destruct (decide (NextPageToken r = "")); [contradiction|].
    rewrite IH by (simpl in Hfuel; lia).
    rewrite ListFilesInFolder_page_spec, List.filter_app, fmap_app.
    now rewrite <- !app_assoc.
Qed.

(** X6. When the folder listing succeeds and the service serves the file
    listing as the pages [rs], [ListFiles] and [ListFilesInFolder] (given
    fuel for these pages) return, without error, one record for each object
    of the pages that is neither empty nor a container, in the order of the
    pages, each with the path its closure resolves against the folder
    listing. They send the folder listing, then one request per page, each
    carrying the token the page before announced. *)
Theorem listing_returns_all_pages `{IO} (entry : option string) (fuel : nat)
    (dc : DriveClient) (foldersResp : FileList) (rs : list FileList)
    (log : list Request) :
  List_Do (service dc) folders_call = Ok foldersResp →
  pages_from dc (listing_query entry) "" rs →
  (length rs ≤ fuel)%nat →
  run_listing entry fuel dc log
  = (Some (toFileInfo (listing_path entry (Files foldersResp))
           <$> List.filter (fun item => negb (skipped item)) (concat (Files <$> rs)),
           None),
     (log ++ Files_List folders_call :: page_requests (listing_query entry) "" rs)%list).
Proof.
  intros Hfolders Hpages Hfuel.
  destruct entry as [parentFolderID|]; simpl in *.
  - unfold ListFilesInFolder, bind, send. simpl. rewrite Hfolders.
    rewrite (ListFilesInFolder_loop_pages dc _ (Files foldersResp) rs "" Hpages)
      by exact Hfuel.
    simpl. now rewrite <- app_assoc.
  - unfold ListFiles, bind, send. simpl. rewrite Hfolders.
    rewrite (ListFiles_loop_pages dc (Files foldersResp) rs "" Hpages) by exact Hfuel.
    simpl. now rewrite <- app_assoc.
Qed.

Lemma listing_returns_all_pages_witness :
  @run_listing sample_IO None 2 (paged_client two_pages) []
  = (Some (toFileInfo (ListFilesPath.buildPath [folder "idA" "A" []])
           <$> List.filter (fun item => negb (skipped item))
                 (concat (Files <$> [first_page; second_page])),
           None),
     [Files_List folders_call; Files_List (with_PageToken None "");
      Files_List (with_PageToken None "100")]).
Proof.
  apply (@listing_returns_all_pages sample_IO None 2 (paged_client two_pages)
           (mkFileList [folder "idA" "A" []] "") [first_page; second_page] []).
  - vm_compute. reflexivity.
  - apply pages_more; [vm_compute; reflexivity | discriminate |].
    apply pages_last; [vm_compute; reflexivity | reflexivity].
  - simpl. lia.
Defined.

Lemma ListFiles_loop_error `{IO} fuel : ∀ dc folders tok files log out e,
  value (ListFiles_loop fuel dc folders tok files log) = Some (out, Some e) →
  out = [] ∧ ∃ e', e = Errorf_wrap "unable to retrieve files" e'.
Proof.
  induction fuel as [|fuel IH]; intros dc folders tok files log out e; simpl;
    [discriminate|].
  unfold bind, send. simpl.
  destruct (List_Do _ _) as [r|e']; simpl.
  - destruct (decide (NextPageToken r = "")); [discriminate | apply IH].
  - unfold value, ret. simpl. intros [= <- <-]. eauto.
Qed.

Lemma ListFilesInFolder_loop_error `{IO} fuel : ∀ dc query folders tok files log out e,
  value (ListFilesInFolder_loop fuel dc query folders tok files log)
  = Some (out, Some e) →
  out = [] ∧ ∃ e', e = Errorf_wrap "unable to retrieve files" e'.
Proof.
  induction fuel as [|fuel IH]; intros dc query folders tok files log out e; simpl;
    [discriminate|].
  unfold bind, send. simpl.
  destruct (List_Do _ _) as [r|e']; simpl.
  - destruct (decide (NextPageToken r = "")); [discriminate | apply IH].
  - unfold value, ret. simpl. intros [= <- <-]. eauto.
Qed.

(** X7. When [ListFiles] or [ListFilesInFolder] returns an error it returns
    no record: the records of the pages fetched before the failure are
    dropped. The error wraps the one of the folder listing or of a file
    listing. *)
Theorem listing_error_returns_no_record `{IO} (entry : option string) (fuel : nat)
    (dc : DriveClient) (log : list Request) (out : list FileInfo) (e : error) :
  value (run_listing entry fuel dc log) = Some (out, Some e) →
  out = [] ∧
  ∃ e', e = Errorf_wrap "unable to retrieve folders" e'
        ∨ e = Errorf_wrap "unable to retrieve files" e'.
Proof.
  destruct entry as [parentFolderID|]; simpl;
    unfold ListFiles, ListFilesInFolder, bind, send; simpl;
    destruct (List_Do _ _) as [r|e0]; simpl.
  - intros Hv. apply ListFilesInFolder_loop_error in Hv as [-> [e' ->]]. eauto.
  - unfold value, ret. simpl. intros [= <- <-]. eauto.
  - intros Hv. apply ListFiles_loop_error in Hv as [-> [e' ->]]. eauto.
  - unfold value, ret. simpl. intros [= <- <-]. eauto.
Qed.

Lemma listing_error_returns_no_record_witness :
  ([] : list FileInfo) = [] ∧
  ∃ e', Errorf_wrap "unable to retrieve files" (external "backend unavailable")
        = Errorf_wrap "unable to retrieve folders" e'
        ∨ Errorf_wrap "unable to retrieve files" (external "backend unavailable")
          = Errorf_wrap "unable to retrieve files" e'.
Proof.
  apply (@listing_error_returns_no_record sample_IO None 5 flaky_client [] []
           (Errorf_wrap "unable to retrieve files" (external "backend unavailable"))).
  vm_compute. reflexivity.
Defined.

(** ** Transfers: validation, requests and results *)

(** What each transfer operation does once its arguments are valid. *)
Lemma run_transfer_valid `{IO} op dc a w log :
  args_valid op a →
  run_transfer op dc a w log
  = (match answer op dc a with
     | Err err => (0, Some (Errorf_wrap (request_context op) err))
     | Ok resp =>
         if decide (accepted op (StatusCode resp))
         then copy_body w resp (copy_context op)
         else (0, Some (Errorf_status (StatusCode resp)))
     end,
     (log ++ [transfer_request op a])%list).
Proof.
  intros [Hf Hv].
  destruct op; simpl in *; run_op;
    (destruct (decide (arg_fileID a = "")); [contradiction|]).
  - destruct (Get_Download _ _) as [resp|err]; [|reflexivity].
    destruct (decide (StatusCode resp ≠ 200)), (decide (StatusCode resp = 200));
      first [reflexivity | contradiction].
  - destruct (decide (StartByte (arg_opts a) < 0 ∨ EndByte (arg_opts a) < 0)); [lia|].
    destruct (decide (StartByte (arg_opts a) > EndByte (arg_opts a))); [lia|].
    destruct (Revisions_Download _ _ _ _) as [resp|err]; [|reflexivity].
    destruct (decide (StatusCode resp ≠ 206 ∧ StatusCode resp ≠ 200)),
      (decide (StatusCode resp = 200 ∨ StatusCode resp = 206));
      first [reflexivity | lia].
  - destruct (decide (arg_format a = "")); [contradiction|].
    destruct (Export_Download _ _ _) as [resp|err]; [|reflexivity].
    destruct (decide (StatusCode resp ≠ 200)), (decide (StatusCode resp = 200));
      first [reflexivity | contradiction].
  - destruct (decide (arg_revisionID a = "")); [contradiction|].
    destruct (Revisions_Download _ _ _ _) as [resp|err]; [|reflexivity].
    destruct (decide (StatusCode resp ≠ 200)), (decide (StatusCode resp = 200));
      first [reflexivity | contradiction].
  - destruct Hv as [Hr Hv].
    destruct (decide (arg_revisionID a = "")); [contradiction|].
    destruct (decide (StartByte (arg_opts a) < 0 ∨ EndByte (arg_opts a) < 0)); [lia|].
    destruct (decide (StartByte (arg_opts a) > EndByte (arg_opts a))); [lia|].
    destruct (Revisions_Download _ _ _ _) as [resp|err]; [|reflexivity].
    destruct (decide (StatusCode resp ≠ 206 ∧ StatusCode resp ≠ 200)),
      (decide (StatusCode resp = 200 ∨ StatusCode resp = 206));
      first [reflexivity | lia].
Qed.

(** What each transfer operation does when a check fails. *)
Lemma run_transfer_invalid `{IO} op dc a w log :
  ¬ args_valid op a →
  ∃ e, validation_error e ∧ run_transfer op dc a w log = ((0, Some e), log).
Proof.
  intros Hinv. unfold args_valid in Hinv.
  destruct op; simpl in *; run_op;
    (destruct (decide (arg_fileID a = "")); [validation "file ID cannot be empty"|]).
  - exfalso. apply Hinv. now split.
  - destruct (decide (StartByte (arg_opts a) < 0 ∨ EndByte (arg_opts a) < 0));
      [validation "byte positions cannot be negative"|].
    destruct (decide (StartByte (arg_opts a) > EndByte (arg_opts a)));
      [validation "start byte must be less than or equal to end byte"|].
    exfalso. apply Hinv. repeat split; [assumption|lia..].
  - destruct (decide (arg_format a = "")); [validation "export format cannot be empty"|].
    exfalso. apply Hinv. now split.
  - destruct (decide (arg_revisionID a = "")); [validation "revision ID cannot be empty"|].
    exfalso. apply Hinv. now split.
  - destruct (decide (arg_revisionID a = "")); [validation "revision ID cannot be empty"|].
    destruct (decide (StartByte (arg_opts a) < 0 ∨ EndByte (arg_opts a) < 0));
      [validation "byte positions cannot be negative"|].
    destruct (decide (StartByte (arg_opts a) > EndByte (arg_opts a)));
      [validation "start byte must be less than or equal to end byte"|].
    exfalso. apply Hinv. repeat split; [assumption..|lia|lia|lia].
Qed.

(** X8. A transfer operation whose arguments fail a check (empty file
    identifier, empty revision identifier, empty export format, negative or
    reversed byte range) returns 0 bytes and an input-validation error, and
    sends nothing. *)
Theorem invalid_transfer_sends_nothing `{IO} (op : transfer) (dc : DriveClient)
    (a : transfer_args) (w : Writer) (log : list Request) :
  ¬ args_valid op a →
  ∃ e, validation_error e ∧ run_transfer op dc a w log = ((0, Some e), log).
Proof. intros Hinv. now apply run_transfer_invalid. Qed.

(** X9. A transfer operation whose arguments pass the checks sends exactly
    one request, the one of its endpoint: file content for [StreamFile],
    export for [ExportWorkspaceDocument], revision content for the three
    others, with a [Range] header for the two partial downloads only. *)
Theorem valid_transfer_sends_one_request `{IO} (op : transfer) (dc : DriveClient)
    (a : transfer_args) (w : Writer) (log : list Request) :
  args_valid op a →
  requests (run_transfer op dc a w log) = (log ++ [transfer_request op a])%list.
Proof. intros Hv. now rewrite (run_transfer_valid op dc a w log Hv). Qed.

(** X10. A transfer operation returns without error exactly when its
    arguments are valid, the service answers with a status it accepts and
    the copy of the body succeeds; the count returned is then the count of
    the copy. *)
Theorem transfer_succeeds_iff `{IO} (op : transfer) (dc : DriveClient)
    (a : transfer_args) (w : Writer) (log : list Request) (n : Z) :
  value (run_transfer op dc a w log) = (n, None) ↔
  args_valid op a ∧
  ∃ resp, answer op dc a = Ok resp ∧ accepted op (StatusCode resp) ∧
          io_Copy w (Body resp) = (n, None).
Proof.
  destruct (decide (args_valid op a)) as [Hv|Hinv].
  - rewrite (run_transfer_valid op dc a w log Hv). unfold value. simpl. split.
    + intros Hres. split; [exact Hv|].
      destruct (answer op dc a) as [resp|err]; [|discriminate].
      exists resp. split; [reflexivity|].
      destruct (decide (accepted op (StatusCode resp))); [|discriminate].
      split; [assumption|].
      unfold copy_body in Hres.
      destruct (io_Copy w (Body resp)) as [m [ce|]]; [discriminate|].
      now injection Hres as ->.
    + intros (_ & resp & -> & Hacc & Hcopy).
      destruct (decide (accepted op (StatusCode resp))); [|contradiction].
      unfold copy_body. now rewrite Hcopy.
  - split; [|intros [? _]; contradiction].
    destruct (run_transfer_invalid op dc a w log Hinv) as (e & _ & ->).
    discriminate.
Qed.

(** X11. A transfer operation returns a non-zero byte count only after the
    service answered with an accepted status, and the count is then the one
    [io.Copy] reports: validation errors, request errors and rejected
    statuses all come with count 0. *)
Theorem transfer_count_comes_from_copy `{IO} (op : transfer) (dc : DriveClient)
    (a : transfer_args) (w : Writer) (log : list Request) (n : Z) (e : option error) :
  value (run_transfer op dc a w log) = (n, e) →
  n ≠ 0 →
  ∃ resp, answer op dc a = Ok resp ∧ accepted op (StatusCode resp) ∧
          fst (io_Copy w (Body resp)) = n.
Proof.
  intros Hres Hn.
  destruct (decide (args_valid op a)) as [Hv|Hinv].
  - rewrite (run_transfer_valid op dc a w log Hv) in Hres. unfold value in Hres.
    simpl in Hres.
    destruct (answer op dc a) as [resp|err]; [|injection Hres as <- _; contradiction].
    exists resp. split; [reflexivity|].
    destruct (decide (accepted op (StatusCode resp)));
      [|injection Hres as <- _; contradiction].
    split; [assumption|].
    unfold copy_body in Hres.
    destruct (io_Copy w (Body resp)) as [m [ce|]]; now injection Hres as <- _.
  - destruct (run_transfer_invalid op dc a w log Hinv) as (e' & _ & Heq).
    rewrite Heq in Hres. injection Hres as <- _. contradiction.
Qed.


Lemma invalid_transfer_sends_nothing_witness :
  let dc := sample_client (Ok (@mkResponse sample_IO 200 (mkSampleReader "abc" None)))
              not_served in
  let a := mkTransferArgs "" "rev" "application/pdf" (mkPartialDownloadOptions 0 5) in
  Forall (fun op => ∃ e, validation_error e ∧
                         @run_transfer sample_IO op dc a (mkSampleWriter 10) []
                         = ((0, Some e), []))
    all_transfers.
Proof.
  intros dc a.
  repeat (apply Forall_cons_2;
    [ apply (@invalid_transfer_sends_nothing sample_IO _ dc a (mkSampleWriter 10) []);
      intros [Hf _]; now apply Hf
    | ]).
  apply Forall_nil_2.
Defined.

Lemma valid_transfer_sends_one_request_witness :
  let dc := sample_client (Ok (@mkResponse sample_IO 206 (mkSampleReader "abc" None)))
              not_served in
  let a := mkTransferArgs "file" "" "" (mkPartialDownloadOptions 0 5) in
  requests (@run_transfer sample_IO OpPartialDownloadFile dc a (mkSampleWriter 10) [])
  = [@Revisions_Get_Download sample_IO "file" "file" (Some "bytes=0-5")].
Proof.
  intros dc a.
  apply (@valid_transfer_sends_one_request sample_IO OpPartialDownloadFile dc a
           (mkSampleWriter 10) []).
  repeat split; first [discriminate | simpl; lia].
Defined.

Lemma transfer_count_comes_from_copy_witness :
  let resp := @mkResponse sample_IO 200 (mkSampleReader "abcdef" None) in
  let dc := sample_client (Ok resp) not_served in
  let a := mkTransferArgs "file" "rev" "application/pdf" (mkPartialDownloadOptions 0 5) in
  ∃ resp', @answer sample_IO OpDownloadRevision dc a = Ok resp' ∧
           accepted OpDownloadRevision (StatusCode resp') ∧
           fst (@io_Copy sample_IO (mkSampleWriter 2) (Body resp')) = 2.
Proof.
  intros resp dc a.
  apply (@transfer_count_comes_from_copy sample_IO OpDownloadRevision dc a
           (mkSampleWriter 2) [] 2
           (Some (Errorf_wrap "unable to write revision content" (external "short write")))).
  - reflexivity.
  - discriminate.
Defined.


(** ** Upload and metadata: results *)

(** X13. [UploadFileFromReader] returns an identifier without error exactly
    when the reader is not nil, the name is not empty and the service
    accepts the create request, whose metadata carries the name, the
    caller's content type (the default one if it is empty) and the parent
    if one is given; the identifier is the one of the service. With an
    error the identifier returned is empty. *)
Theorem upload_result `{IO} (dc : DriveClient) (reader : option Reader)
    (fileName mimeType parentFolderID : string) (log : list Request)
    (id : string) :
  (value (UploadFileFromReader dc reader fileName mimeType parentFolderID log)
   = (id, None) ↔
   ∃ r uploaded,
     reader = Some r ∧ fileName ≠ "" ∧
     Create_Do (service dc)
       (mkFile "" fileName
          (if decide (mimeType = "") then "application/octet-stream" else mimeType)
          0 "" (if decide (parentFolderID ≠ "") then [parentFolderID] else []) false)
       r upload_fields = Ok uploaded ∧
     Id uploaded = id) ∧
  (∀ e, value (UploadFileFromReader dc reader fileName mimeType parentFolderID log)
        = (id, Some e) → id = "").
Proof.
  unfold UploadFileFromReader, value, bind, send, ret, fileMeta. split.
  - split.
    + destruct reader as [r|]; [|discriminate].
      destruct (decide (fileName = "")); [discriminate|]. simpl.
      destruct (Create_Do _ _ _ _) as [uploaded|err] eqn:Hc; [|discriminate].
      simpl. intros [= <-]. exists r, uploaded. repeat split; assumption.
    + intros (r & uploaded & -> & Hname & Hc & <-).
      destruct (decide (fileName = "")); [contradiction|]. simpl. now rewrite Hc.
  - intros e. destruct reader as [r|]; [|now intros [= <- _]].
    destruct (decide (fileName = "")); [now intros [= <- _]|]. simpl.
    destruct (Create_Do _ _ _ _); [discriminate | now intros [= <- _]].
Qed.

(** X14. [IsWorkspaceDocument] never answers [true] together with an error,
    sends nothing for an empty identifier, and otherwise sends exactly one
    metadata request, for the field ["mimeType"]. *)
Theorem IsWorkspaceDocument_errors `{IO} (dc : DriveClient) (fileID : string)
    (log : list Request) :
  (∀ b e, value (IsWorkspaceDocument dc fileID log) = (b, Some e) → b = false) ∧
  requests (IsWorkspaceDocument dc fileID log)
  = (if decide (fileID = "") then log else log ++ [Files_Get fileID "mimeType"])%list.
Proof.
  unfold IsWorkspaceDocument, value, requests, bind, send, ret.
  destruct (decide (fileID = "")) as [Hid|Hid]; simpl.
  - split; [now intros b e [= <- _] | reflexivity].
  - destruct (Get_Do _ _ _) as [file|err]; simpl.
    + destruct (decide _) as [Hm|Hm]; simpl;
        (split; [intros b e; discriminate | reflexivity]).
    + split; [now intros b e [= <- _] | reflexivity].
Qed.

(** ** Transfers to a local path *)

(** X15. When the output path is empty, or the directory or the file cannot
    be created, [DownloadFile] and [ExportWorkspaceDocumentToFile] return 0
    bytes and an error without sending any request, and no file is closed
    because none was opened. *)
Theorem local_failure_sends_nothing `{LocalFS} (dc : DriveClient)
    (fileID outputPath format : string) (fs : list fs_event) (log : list Request) :
  local_file_fails outputPath →
  (∃ e fs', DownloadFile dc fileID outputPath fs log = (((0, Some e), fs'), log)
            ∧ FS_Close outputPath ∉ drop (length fs) fs') ∧
  (∃ e fs', ExportWorkspaceDocumentToFile dc fileID outputPath format fs log
            = (((0, Some e), fs'), log)
            ∧ FS_Close outputPath ∉ drop (length fs) fs').
Proof.
  intros Hfail. unfold DownloadFile, ExportWorkspaceDocumentToFile, ret.
  assert (∀ l : list fs_event, FS_Close outputPath ∉ l →
            FS_Close outputPath ∉ drop (length fs) (fs ++ l)) as Hdrop.
  { intros l Hl. now rewrite drop_app_length. }
  assert (FS_Close outputPath ∉ drop (length fs) fs) as Hdrop0.
  { rewrite drop_all. apply not_elem_of_nil. }
  destruct (decide (outputPath = "")) as [Hp|Hp].
  { split; do 2 eexists; (split; [reflexivity | exact Hdrop0]). }
  destruct (os_MkdirAll (filepath_Dir outputPath) dir_perm) as [err|] eqn:Hmk.
  { split; do 2 eexists; (split; [reflexivity|]); apply Hdrop;
      intros Hin; repeat (apply elem_of_cons in Hin as [Hin|Hin]; [discriminate|]);
      inversion Hin. }
  destruct Hfail as [Hempty|[[x Hx]|[err Hcr]]]; [contradiction | congruence |].
  rewrite Hcr.
  split; do 2 eexists; (split; [reflexivity|]); rewrite <- app_assoc; apply Hdrop;
    intros Hin; repeat (apply elem_of_cons in Hin as [Hin|Hin]; [discriminate|]);
    inversion Hin.
Qed.

Lemma local_failure_sends_nothing_witness :
  let dc := sample_client (Ok (@mkResponse sample_IO 200 (mkSampleReader "abc" None)))
              not_served in
  (∃ e fs', @DownloadFile sample_IO readonly_fs dc "file" "/downloads/a.bin" [] []
            = (((0, Some e), fs'), [])
            ∧ FS_Close "/downloads/a.bin" ∉ drop (length ([] : list fs_event)) fs') ∧
  (∃ e fs', @ExportWorkspaceDocumentToFile sample_IO readonly_fs dc "file"
              "/downloads/a.bin" "application/pdf" [] []
            = (((0, Some e), fs'), [])
            ∧ FS_Close "/downloads/a.bin" ∉ drop (length ([] : list fs_event)) fs').
Proof.
  intros dc.
  apply (@local_failure_sends_nothing sample_IO readonly_fs dc "file" "/downloads/a.bin"
           "application/pdf" [] []).
  right; left. eexists. reflexivity.
Defined.

(** The two operations once the local steps succeeded. *)
Lemma to_file_ready `{LocalFS} (dc : DriveClient)
    (fileID outputPath format : string) (out : Writer) (fs : list fs_event)
    (log : list Request) :
  local_file_ready outputPath out →
  let events := [FS_MkdirAll (filepath_Dir outputPath) dir_perm;
                 FS_Create outputPath; FS_Close outputPath] in
  DownloadFile dc fileID outputPath fs log
  = (let '((n, e), log') := StreamFile dc fileID out log in
     (((n, Errorf_wrap "unable to download file" <$> e), (fs ++ events)%list), log')) ∧
  ExportWorkspaceDocumentToFile dc fileID outputPath format fs log
  = (let '((n, e), log') := ExportWorkspaceDocument dc fileID out format log in
     (((n, Errorf_wrap "unable to export document" <$> e), (fs ++ events)%list), log')).
Proof.
  intros (Hp & Hmk & Hcr) events.
  unfold DownloadFile, ExportWorkspaceDocumentToFile, bind, ret.
  destruct (decide (outputPath = "")) as [Hempty|_]; [contradiction|].
  rewrite Hmk, Hcr. split.
  - destruct (StreamFile dc fileID out log) as [[n [e|]] log']; simpl;
      now rewrite <- !app_assoc.
  - destruct (ExportWorkspaceDocument dc fileID out format log) as [[n [e|]] log'];
      simpl; now rewrite <- !app_assoc.
Qed.

(** X16. Once the directory and the file are created, [DownloadFile] is
    [StreamFile] into that file, and [ExportWorkspaceDocumentToFile] is
    [ExportWorkspaceDocument] into it: same requests, same byte count (the
    partial count when the copy fails), the error wrapped once more; and
    the file is closed whether the transfer succeeded or not. *)
Theorem to_file_is_transfer_into_the_file `{LocalFS} (dc : DriveClient)
    (fileID outputPath format : string) (out : Writer) (fs : list fs_event)
    (log : list Request) :
  local_file_ready outputPath out →
  let events := [FS_MkdirAll (filepath_Dir outputPath) dir_perm;
                 FS_Create outputPath; FS_Close outputPath] in
  DownloadFile dc fileID outputPath fs log
  = (let '((n, e), log') := StreamFile dc fileID out log in
     (((n, Errorf_wrap "unable to download file" <$> e), (fs ++ events)%list), log')) ∧
  ExportWorkspaceDocumentToFile dc fileID outputPath format fs log
  = (let '((n, e), log') := ExportWorkspaceDocument dc fileID out format log in
     (((n, Errorf_wrap "unable to export document" <$> e), (fs ++ events)%list), log')).
Proof. intros Hready. now apply to_file_ready. Qed.

Lemma to_file_is_transfer_into_the_file_witness :
  let dc := sample_client (Ok (@mkResponse sample_IO 200 (mkSampleReader "abcdef" None)))
              not_served in
  let events := [FS_MkdirAll "/downloads" 493; FS_Create "/downloads/a.bin";
                 FS_Close "/downloads/a.bin"] in
  @DownloadFile sample_IO (roomy_fs 2) dc "file" "/downloads/a.bin" [] []
  = (((2, Some (Errorf_wrap "unable to download file"
                  (Errorf_wrap "unable to stream file content" (external "short write")))),
      events), [@Files_Get_Download sample_IO "file"]) ∧
  @ExportWorkspaceDocumentToFile sample_IO (roomy_fs 2) dc "file" "/downloads/a.bin"
     "application/pdf" [] []
  = (((2, Some (Errorf_wrap "unable to export document"
                  (Errorf_wrap "unable to write exported content" (external "short write")))),
      events), [@Files_Export_Download sample_IO "file" "application/pdf"]).
Proof.
  intros dc events.
  apply (@to_file_is_transfer_into_the_file sample_IO (roomy_fs 2) dc "file"
           "/downloads/a.bin" "application/pdf" (mkSampleWriter 2) [] []).
  repeat split. discriminate.
Defined.

(** X17. The identifier and the export format are checked only after the
    output file was created: with an empty identifier (or an empty format
    for the export) and a path that can be created, the directory and the
    file are created, the file is closed, nothing is sent and the
    validation error comes back wrapped. *)
Theorem output_file_created_before_validation `{LocalFS} (dc : DriveClient)
    (fileID outputPath format : string) (out : Writer) (fs : list fs_event)
    (log : list Request) :
  local_file_ready outputPath out →
  fileID = "" ∨ format = "" →
  let events := [FS_MkdirAll (filepath_Dir outputPath) dir_perm;
                 FS_Create outputPath; FS_Close outputPath] in
  (fileID = "" →
   DownloadFile dc fileID outputPath fs log
   = (((0, Some (Errorf_wrap "unable to download file"
                   (errors_New "file ID cannot be empty"))), (fs ++ events)%list), log)) ∧
  ∃ e, validation_error e ∧
       ExportWorkspaceDocumentToFile dc fileID outputPath format fs log
       = (((0, Some (Errorf_wrap "unable to export document" e)), (fs ++ events)%list), log).
Proof.
  intros Hready Hbad events.
  destruct (to_file_ready dc fileID outputPath format out fs log
              Hready) as [Hd He].
  split.
  - intros ->. rewrite Hd. reflexivity.
  - rewrite He. unfold ExportWorkspaceDocument, ret.
    destruct (decide (fileID = "")) as [Hf|Hf].
    + exists (errors_New "file ID cannot be empty"). split; [|reflexivity].
      exists "file ID cannot be empty". split; [compute_done | reflexivity].
    + destruct Hbad as [Hbad|Hbad]; [contradiction|].
      destruct (decide (format = "")); [|contradiction].
      exists (errors_New "export format cannot be empty"). split; [|reflexivity].
      exists "export format cannot be empty". split; [compute_done | reflexivity].
Qed.

Lemma output_file_created_before_validation_witness :
  let dc := sample_client (Ok (@mkResponse sample_IO 200 (mkSampleReader "abc" None)))
              not_served in
  let events := [FS_MkdirAll "/downloads" 493; FS_Create "/downloads/a.bin";
                 FS_Close "/downloads/a.bin"] in
  ("" = "" →
   @DownloadFile sample_IO (roomy_fs 10) dc "" "/downloads/a.bin" [] []
   = (((0, Some (Errorf_wrap "unable to download file"
                   (errors_New "file ID cannot be empty"))), events), [])) ∧
  ∃ e, validation_error e ∧
       @ExportWorkspaceDocumentToFile sample_IO (roomy_fs 10) dc "" "/downloads/a.bin"
         "application/pdf" [] []
       = (((0, Some (Errorf_wrap "unable to export document" e)), events), []).
Proof.
  intros dc events.
  apply (@output_file_created_before_validation sample_IO (roomy_fs 10) dc ""
           "/downloads/a.bin" "application/pdf" (mkSampleWriter 10) [] []).
  - repeat split. discriminate.
  - now left.
Defined.

(** ** Export links, folder creation and the trash *)

(** X18. [GetExportLinks] never returns an empty map without an error. With
    an error the map is empty, and the error tells the causes apart: the
    message for an empty identifier, the wrapped error of the request, or,
    when the service returned no export link, a plain error that names the
    content type of the file. *)
Theorem GetExportLinks_result `{IO} (Get_Do_links : string → string → result FileWithLinks)
    (fileID : string) (log : list Request) (links : gmap string string) :
  (value (GetExportLinks Get_Do_links fileID log) = (links, None) ↔
   fileID ≠ "" ∧ links ≠ ∅ ∧
   ∃ file, Get_Do_links fileID "exportLinks, mimeType" = Ok file
           ∧ ExportLinks file = links) ∧
  (∀ e, value (GetExportLinks Get_Do_links fileID log) = (links, Some e) →
     links = ∅ ∧
     ((fileID = "" ∧ e = errors_New "file ID cannot be empty") ∨
      (∃ err, Get_Do_links fileID "exportLinks, mimeType" = Err err
              ∧ e = Errorf_wrap "unable to get file metadata" err) ∨
      (∃ file, Get_Do_links fileID "exportLinks, mimeType" = Ok file
               ∧ ExportLinks file = ∅
               ∧ e = errors_New ("file is not a Google Workspace document (MIME type: "
                                 +:+ MimeType (file_of file) +:+ ")")))).
Proof.
  unfold GetExportLinks, value, bind, send, ret.
  destruct (decide (fileID = "")) as [Hid|Hid]; simpl.
  { split.
    - split; [discriminate | intros [? _]; contradiction].
    - intros e [= <- <-]. split; [reflexivity|]. now left. }
  destruct (Get_Do_links fileID "exportLinks, mimeType") as [file|err]; simpl.
  - destruct (decide (size (ExportLinks file) = 0%nat)) as [Hsz|Hsz]; simpl.
    + assert (ExportLinks file = ∅) as Hempty by (now apply map_size_empty_iff).
      split.
      * split; [discriminate|].
        intros (_ & Hne & f & [= <-] & Hl). congruence.
      * intros e [= <- <-]. split; [reflexivity|]. right; right. now exists file.
    + split; [|intros e; discriminate].
      split.
      * intros [= <-]. split; [exact Hid|]. split; [|exists file; now split].
        intros Hempty. apply Hsz. now rewrite Hempty, map_size_empty.
      * intros (_ & _ & f & [= <-] & <-). reflexivity.
  - split.
    + split; [discriminate | intros (_ & _ & f & Hf & _); discriminate].
    + intros e [= <- <-]. split; [reflexivity|]. right; left. now exists err.
Qed.


